(** * cyse411: the session lab and the path canonicalization lab

    A shallow embedding of the two Express servers of the repository:

    - [PathGuard]: [canonicalization-example/server.js], the guarded
      [/read] route ([sanitizeFilename], [resolveSafe], the containment
      check on [BASE_DIR]);
    - [Auth]: the FastBank auth lab ([findUser], [createSession],
      [rotateSession], [requireAuth], the [/api/login], [/api/me] and
      [/api/logout] routes).

    JavaScript strings are sequences of UTF-16 code units; they are
    modelled as lists of [N].  Numbers that the code uses as millisecond
    timestamps are modelled as [Z]. *)

From Stdlib Require Import ZArith NArith List String Ascii Bool Lia.
From stdpp Require Import gmap list.

Local Open Scope N_scope.

(** ** JavaScript strings *)

Module JS.

Definition jsstring : Type := list N.

(** A string literal of the source, as code units. *)
Definition js (s : string) : jsstring :=
  map N_of_ascii (list_ascii_of_string s).
Arguments js : simpl never.

Definition slash : N := 47.
Definition dot : N := 46.
Definition percent : N := 37.
Definition colon : N := 58.

(** [s.startsWith(p)] *)
Fixpoint startsWith (s p : jsstring) {struct p} : bool :=
  match p, s with
  | [], _ => true
  | _ :: _, [] => false
  | b :: p', a :: s' => (a =? b) && startsWith s' p'
  end.

(** [s.includes(p)] *)
Fixpoint includes (s p : jsstring) : bool :=
  startsWith s p ||
  match s with
  | [] => false
  | _ :: s' => includes s' p
  end.

(** [s === t] on strings *)
Definition str_eqb (s t : jsstring) : bool := bool_decide (s = t).

(** The code units matched by [\s] (WhiteSpace and LineTerminator of
    ECMAScript), which is what validator's [trim] strips. *)
Definition is_space (c : N) : bool :=
  ((9 <=? c) && (c <=? 13)) || (c =? 32) || (c =? 160) || (c =? 5760)
  || ((8192 <=? c) && (c <=? 8202)) || (c =? 8232) || (c =? 8233)
  || (c =? 8239) || (c =? 8287) || (c =? 12288) || (c =? 65279).

Fixpoint ltrim (s : jsstring) : jsstring :=
  match s with
  | [] => []
  | c :: s' => if is_space c then ltrim s' else s
  end.

Definition rtrim (s : jsstring) : jsstring := rev (ltrim (rev s)).

Definition trim (s : jsstring) : jsstring := rtrim (ltrim s).

(** What a thrown [Error] carries: its message. *)
Inductive result (A : Type) : Type :=
  | Ok (a : A)
  | Throw (msg : string).
Arguments Ok {A} a.
Arguments Throw {A} msg.

End JS.
Export JS.

(** ** The path canonicalization lab: [canonicalization-example/server.js] *)

Module PathGuard.

(** *** [decodeURIComponent]

    The [Decode] operation of ECMAScript with an empty reserved set: a
    code unit other than [%] is copied; [%XY] is one octet; an octet
    with [n] leading one bits starts a UTF-8 sequence of [n] octets,
    each of them written [%XY]; anything malformed throws [URIError]. *)

Definition hexval (c : N) : option N :=
  if (48 <=? c) && (c <=? 57) then Some (c - 48)
  else if (65 <=? c) && (c <=? 70) then Some (c - 55)
  else if (97 <=? c) && (c <=? 102) then Some (c - 87)
  else None.

(** The octet written by the two code units that follow a [%]. *)
Definition escape_octet (s : jsstring) : option N :=
  match s with
  | h1 :: h2 :: _ =>
      match hexval h1, hexval h2 with
      | Some a, Some b => Some (16 * a + b)
      | _, _ => None
      end
  | _ => None
  end.

Definition leading_ones (b : N) : nat :=
  if b <? 128 then 0
  else if b <? 192 then 1
  else if b <? 224 then 2
  else if b <? 240 then 3
  else if b <? 248 then 4
  else 5.

(** The [n] continuation octets [%XY] (each [10xxxxxx]) at the head of [s]. *)
Fixpoint continuation (n : nat) (s : jsstring) : option (list N) :=
  match n with
  | O => Some []
  | S n' =>
      match s with
      | c :: rest =>
          if c =? percent then
            match escape_octet rest with
            | Some b =>
                if N.land b 192 =? 128 then
                  match continuation n' (skipn 2 rest) with
                  | Some bs => Some (b :: bs)
                  | None => None
                  end
                else None
            | None => None
            end
          else None
      | [] => None
      end
  end.

(** The code point of a UTF-8 sequence, when it is a valid encoding
    (shortest form, no surrogate, at most U+10FFFF). *)
Definition utf8_codepoint (octets : list N) : option N :=
  match octets with
  | [b0; b1] =>
      let cp := N.lor (N.shiftl (N.land b0 31) 6) (N.land b1 63) in
      if 128 <=? cp then Some cp else None
  | [b0; b1; b2] =>
      let cp := N.lor (N.shiftl (N.land b0 15) 12)
                  (N.lor (N.shiftl (N.land b1 63) 6) (N.land b2 63)) in
      if (2048 <=? cp) && negb ((55296 <=? cp) && (cp <=? 57343))
      then Some cp else None
  | [b0; b1; b2; b3] =>
      let cp := N.lor (N.shiftl (N.land b0 7) 18)
                  (N.lor (N.shiftl (N.land b1 63) 12)
                     (N.lor (N.shiftl (N.land b2 63) 6) (N.land b3 63))) in
      if (65536 <=? cp) && (cp <=? 1114111) then Some cp else None
  | _ => None
  end.

Definition utf16_encode (cp : N) : jsstring :=
  if cp <? 65536 then [cp]
  else let v := cp - 65536 in
       [55296 + N.shiftr v 10; 56320 + N.land v 1023].

Definition URIError : string := "URIError: URI malformed".

Definition prepend (units : jsstring) (r : result jsstring) : result jsstring :=
  match r with
  | Ok s => Ok (units ++ s)
  | Throw m => Throw m
  end.

(** The loop of [Decode].  [skip] counts the code units of the escape
    that was just decoded and that the index [k] of the source loop
    steps over. *)
Fixpoint decode (skip : nat) (s : jsstring) : result jsstring :=
  match s with
  | [] => Ok []
  | c :: rest =>
      match skip with
      | S k => decode k rest
      | O =>
          if c =? percent then
            match escape_octet rest with
            | None => Throw URIError
            | Some b =>
                match leading_ones b with
                | O => prepend [b] (decode 2 rest)
                | 1%nat | 5%nat => Throw URIError
                | S n' =>
                    match continuation n' (skipn 2 rest) with
                    | None => Throw URIError
                    | Some bs =>
                        match utf8_codepoint (b :: bs) with
                        | None => Throw URIError
                        | Some cp =>
                            prepend (utf16_encode cp)
                              (decode (2 + 3 * n') rest)
                        end
                    end
                end
            end
          else prepend [c] (decode 0 rest)
      end
  end.

Definition decodeURIComponent (s : jsstring) : result jsstring := decode 0 s.

(** *** [path.resolve] and [path.sep] of Node, POSIX flavour

    [path.resolve] walks its arguments from right to left, then the
    working directory, prefixing each non-empty one until an absolute
    path is formed; the result is normalized: empty and [.] segments are
    dropped, [..] removes the segment before it (and is dropped at the
    root), and there is no trailing separator. *)

Definition sep : jsstring := [slash].

(** [s.split('/')] *)
Fixpoint split_sep (s : jsstring) : list jsstring :=
  match s with
  | [] => [[]]
  | c :: r =>
      if c =? slash then [] :: split_sep r
      else match split_sep r with
           | seg :: segs => (c :: seg) :: segs
           | [] => [[c]]
           end
  end.

(** [segs.join('/')] *)
Fixpoint join_sep (segs : list jsstring) : jsstring :=
  match segs with
  | [] => []
  | [seg] => seg
  | seg :: rest => seg ++ slash :: join_sep rest
  end.

Definition dotdot : jsstring := [dot; dot].

(** One segment of the normalization; the stack holds the kept segments,
    last one first. *)
Definition norm_step (allowAboveRoot : bool) (stack : list jsstring)
    (seg : jsstring) : list jsstring :=
  if str_eqb seg [] || str_eqb seg [dot] then stack
  else if str_eqb seg dotdot then
    match stack with
    | top :: below =>
        if str_eqb top dotdot then
          (if allowAboveRoot then dotdot :: stack else stack)
        else below
    | [] => if allowAboveRoot then [dotdot] else []
    end
  else seg :: stack.

Definition normalize (allowAboveRoot : bool) (p : jsstring) : jsstring :=
  join_sep (rev (fold_left (norm_step allowAboveRoot) (split_sep p) [])).

(** The right-to-left loop of [path.resolve]; [paths] is given last
    argument first and ends with the working directory. *)
Fixpoint resolve_loop (paths : list jsstring) (resolvedPath : jsstring)
    : bool * jsstring :=
  match paths with
  | [] => (false, resolvedPath)
  | p :: before =>
      match p with
      | [] => resolve_loop before resolvedPath
      | c :: _ =>
          let resolvedPath' := p ++ slash :: resolvedPath in
          if c =? slash then (true, resolvedPath')
          else resolve_loop before resolvedPath'
      end
  end.

Definition path_resolve (cwd : jsstring) (args : list jsstring) : jsstring :=
  let '(resolvedAbsolute, resolvedPath) :=
    resolve_loop (rev args ++ [cwd]) [] in
  let normalized := normalize (negb resolvedAbsolute) resolvedPath in
  if resolvedAbsolute then slash :: normalized
  else match normalized with
       | [] => [dot]
       | _ => normalized
       end.

(** *** The source proper *)

(** [const SAFE_FILENAME = /^[A-Za-z0-9._\-\/]+$/] *)
Definition safe_char (c : N) : bool :=
  ((65 <=? c) && (c <=? 90)) || ((97 <=? c) && (c <=? 122))
  || ((48 <=? c) && (c <=? 57))
  || (c =? dot) || (c =? 95) || (c =? 45) || (c =? slash).

Definition SAFE_FILENAME_test (value : jsstring) : bool :=
  match value with
  | [] => false
  | _ :: _ => forallb safe_char value
  end.

Definition sanitizeFilename (value : jsstring) : result jsstring :=
  if negb (SAFE_FILENAME_test value) then
    Throw "Illegal characters in filename"
  else if includes value (js "..") then Throw "Path traversal attempt"
  else if startsWith value (js "/") then Throw "Absolute paths not allowed"
  else Ok value.

(** The [filename] field of the parsed request body. *)
Inductive Field : Type :=
  | Absent                  (* [undefined] *)
  | NotString               (* a value whose [typeof] is not ['string'] *)
  | Str (s : jsstring).

(** The express-validator chain of the route:
    [exists().withMessage(..).bail().isString().trim().notEmpty()
      .withMessage(..).custom(sanitizeFilename)].
    Validators and sanitizers run in the order written; only [bail]
    stops the chain, so [notEmpty] and the custom validator both report.
    [trim] writes the trimmed string back into [req.body.filename].
    For a value that is not a string the entries that follow the one of
    [isString] are left out. *)
Inductive Chain : Type :=
  | Invalid (errors : list string)
  | Valid (filename : jsstring).

Definition custom_errors (value : jsstring) : list string :=
  match sanitizeFilename value with
  | Throw msg => [msg]
  | Ok [] => ["Invalid value"%string]
  | Ok (_ :: _) => []
  end.

Definition run_chain (field : Field) : Chain :=
  match field with
  | Absent => Invalid ["filename required"%string]
  | NotString => Invalid ["Invalid value"%string]
  | Str s =>
      let value := trim s in
      let errors :=
        (match value with
         | [] => ["filename must not be empty"%string]
         | _ => []
         end) ++ custom_errors value in
      match errors with
      | [] => Valid value
      | _ :: _ => Invalid errors
      end
  end.

Inductive Node : Type :=
  | File (content : jsstring)
  | Dir.

(** The calls the route makes into [fs], in order. *)
Inductive FsOp : Type :=
  | ExistsSync (p : jsstring)
  | ReadFileSync (p : jsstring).

Inductive Response : Type :=
  | ValidationFailed (errors : list string)          (* 400 *)
  | TraversalDetected                                (* 403 *)
  | FileNotFound                                     (* 404 *)
  | FileContent (path : jsstring) (content : jsstring) (* 200 *)
  | Uncaught (msg : string).         (* [readFileSync] threw *)

Definition status (r : Response) : N :=
  match r with
  | ValidationFailed _ => 400
  | TraversalDetected => 403
  | FileNotFound => 404
  | FileContent _ _ => 200
  | Uncaught _ => 500
  end.

Section Server.

(** [process.cwd()], [__dirname] and the file system the server runs on. *)
Variable cwd : jsstring.
Variable dirname : jsstring.
Variable fs : jsstring -> option Node.

Definition BASE_DIR : jsstring := path_resolve cwd [dirname; js "files"].

Definition resolveSafe (baseDir userInput : jsstring) : jsstring :=
  let userInput' :=
    match decodeURIComponent userInput with
    | Ok decoded => decoded
    | Throw _ => userInput
    end in
  path_resolve cwd [baseDir; userInput'].

(** [app.post('/read', ...)]: the response and the [fs] calls made. *)
Definition read_route (field : Field) : Response * list FsOp :=
  match run_chain field with
  | Invalid errors => (ValidationFailed errors, [])
  | Valid filename =>
      let normalized := resolveSafe BASE_DIR filename in
      if negb (startsWith normalized (BASE_DIR ++ sep)) then
        (TraversalDetected, [])
      else
        match fs normalized with
        | None => (FileNotFound, [ExistsSync normalized])
        | Some (File content) =>
            (FileContent normalized content,
             [ExistsSync normalized; ReadFileSync normalized])
        | Some Dir =>
            (Uncaught "EISDIR: illegal operation on a directory, read",
             [ExistsSync normalized; ReadFileSync normalized])
        end
  end.

End Server.

(** The path an [fs] call is made on. *)
Definition op_path (op : FsOp) : jsstring :=
  match op with
  | ExistsSync p => p
  | ReadFileSync p => p
  end.

(** [p] is a prefix of [s] and [s] goes on after it. *)
Definition strict_prefix (p s : jsstring) : Prop :=
  ∃ k, k ≠ [] ∧ s = p ++ k.

(** A path segment as normalization keeps it under an absolute path. *)
Definition proper (seg : jsstring) : Prop :=
  seg ≠ [] ∧ slash ∉ seg.

Definition plain (seg : jsstring) : Prop :=
  proper seg ∧ seg ≠ [dot] ∧ seg ≠ dotdot.

(** *** [path.join] and the route without validation *)

(** [path.normalize] of Node, POSIX flavour: the normal form keeps a
    trailing separator when the path had one. *)
Definition path_normalize (p : jsstring) : jsstring :=
  match p with
  | [] => [dot]
  | c :: _ =>
      let isAbsolute := c =? slash in
      let trailingSeparator :=
        match last p with
        | Some l => l =? slash
        | None => false
        end in
      match normalize (negb isAbsolute) p with
      | [] =>
          if isAbsolute then [slash]
          else if trailingSeparator then [dot; slash] else [dot]
      | n =>
          let n' := if trailingSeparator then n ++ [slash] else n in
          if isAbsolute then slash :: n' else n'
      end
  end.

(** The loop of [path.join]: the non-empty arguments, separated by [/];
    [None] is [undefined]. *)
Definition join_step (joined : option jsstring) (arg : jsstring)
    : option jsstring :=
  match arg with
  | [] => joined
  | _ :: _ =>
      match joined with
      | None => Some arg
      | Some j => Some (j ++ slash :: arg)
      end
  end.

Definition path_join (args : list jsstring) : jsstring :=
  match fold_left join_step args None with
  | None => [dot]
  | Some joined => path_normalize joined
  end.

(** [req.body.filename] as [/read-no-validate] sees it: a falsy value
    ([undefined], [null], [false], [0]), another value that is not a
    string, or a string. *)
Inductive Raw : Type :=
  | Falsy
  | Truthy
  | Text (s : jsstring).

Inductive Unguarded : Type :=
  | NotFoundAt (path : jsstring)                     (* 404, with the path *)
  | Content (path : jsstring) (content : jsstring)   (* 200 *)
  | Threw (msg : string).

Section Unvalidated.

Variable cwd : jsstring.
Variable dirname : jsstring.
Variable fs : jsstring -> option Node.

(** [app.post('/read-no-validate', ...)]: [path.join] throws on an
    argument that is not a string, [readFileSync] on a directory. *)
Definition read_no_validate (field : Raw) : Unguarded * list FsOp :=
  match match field with
        | Falsy => Some []                 (* [|| ''] *)
        | Text [] => Some []
        | Text s => Some s
        | Truthy => None
        end with
  | None =>
      (Threw "TypeError [ERR_INVALID_ARG_TYPE]: The path argument must be of type string",
       [])
  | Some filename =>
      let joined := path_join [BASE_DIR cwd dirname; filename] in
      match fs joined with
      | None => (NotFoundAt joined, [ExistsSync joined])
      | Some (File content) =>
          (Content joined content, [ExistsSync joined; ReadFileSync joined])
      | Some Dir =>
          (Threw "EISDIR: illegal operation on a directory, read",
           [ExistsSync joined; ReadFileSync joined])
      end
  end.

End Unvalidated.

(** A deployment to run the route on: the server lives in [/srv/app]
    and [/setup-sample] has written its two files. *)
Module Sample.

Definition cwd : jsstring := js "/srv".
Definition dirname : jsstring := js "/srv/app".

Definition hello : jsstring := js "Hello from safe file!" ++ [10].
Definition readme : jsstring :=
  js "# Readme" ++ [10] ++ js "Sample readme file".

Definition fs (p : jsstring) : option Node :=
  if str_eqb p (js "/srv/app/files/hello.txt") then Some (File hello)
  else if str_eqb p (js "/srv/app/files/notes/readme.md") then
    Some (File readme)
  else if str_eqb p (js "/srv/app/files/notes") then Some Dir
  else if str_eqb p (js "/srv/app/files") then Some Dir
  else None.

End Sample.

(** *** The helper route [/setup-sample] and the disk it writes to *)

(** The disk: what there is at each absolute path.  The root is always
    a directory. *)
Abbreviation Disk := (gmap jsstring Node).

Definition disk_fs (disk : Disk) (p : jsstring) : option Node :=
  if str_eqb p [slash] then Some Dir else disk !! p.

(** The loop of [path.dirname], on the path without its first code
    unit and read from the end: the code units that are left of the
    separator before the last segment. *)
Fixpoint dirname_loop (r : jsstring) (matchedSlash : bool) : option jsstring :=
  match r with
  | [] => None
  | x :: r' =>
      if x =? slash then
        (if matchedSlash then dirname_loop r' true else Some r')
      else dirname_loop r' false
  end.

(** [path.dirname] of Node, POSIX flavour. *)
Definition path_dirname (p : jsstring) : jsstring :=
  match p with
  | [] => [dot]
  | c :: rest =>
      let hasRoot := c =? slash in
      match dirname_loop (rev rest) true with
      | None => if hasRoot then [slash] else [dot]
      | Some before =>
          if hasRoot && bool_decide (before = []) then [slash; slash]
          else c :: rev before
      end
  end.

(** A path and the directories above it, up to the root. *)
Fixpoint ancestry (fuel : nat) (p : jsstring) : list jsstring :=
  match fuel with
  | O => []
  | S fuel' =>
      if str_eqb p [slash] then []
      else p :: ancestry fuel' (path_dirname p)
  end.

(** [fs.mkdirSync(d, { recursive: true })] along [d :: parent :: ...]:
    an existing directory ends the walk, a file in the way throws, and
    what is missing is created from the top down. *)
Fixpoint mkdirp (chain : list jsstring) (disk : Disk) : result Disk :=
  match chain with
  | [] => Ok disk
  | d :: above =>
      match disk !! d with
      | Some Dir => Ok disk
      | Some (File _) => Throw "ENOTDIR: not a directory, mkdir"
      | None =>
          match mkdirp above disk with
          | Ok disk' => Ok (<[d := Dir]> disk')
          | Throw msg => Throw msg
          end
      end
  end.

Definition mkdirSync_recursive (d : jsstring) (disk : Disk) : result Disk :=
  mkdirp (ancestry (length d) d) disk.

(** [fs.writeFileSync(p, data, 'utf8')]: the parent has to be a
    directory and [p] must not be one; an existing file is replaced. *)
Definition writeFileSync (p data : jsstring) (disk : Disk) : result Disk :=
  match disk_fs disk p with
  | Some Dir => Throw "EISDIR: illegal operation on a directory, open"
  | _ =>
      match disk_fs disk (path_dirname p) with
      | Some Dir => Ok (<[p := File data]> disk)
      | Some (File _) => Throw "ENOTDIR: not a directory, open"
      | None => Throw "ENOENT: no such file or directory, open"
      end
  end.

(** [const samples = {...}], in the order of [Object.keys]. *)
Definition samples : list (jsstring * jsstring) :=
  [ (js "hello.txt", Sample.hello); (js "notes/readme.md", Sample.readme) ].

Section Setup.

Variable cwd : jsstring.
Variable dirname : jsstring.

(** The body of the [forEach] for one key. *)
Definition setup_one (disk : Disk) (sample : jsstring * jsstring)
    : result Disk :=
  let p := path_resolve cwd [BASE_DIR cwd dirname; sample.1] in
  let d := path_dirname p in
  match (match disk_fs disk d with
         | Some _ => Ok disk
         | None => mkdirSync_recursive d disk
         end) with
  | Ok disk' => writeFileSync p sample.2 disk'
  | Throw msg => Throw msg
  end.

(** [app.post('/setup-sample', ...)]: the disk when the route has
    answered [{ ok: true, base: BASE_DIR }], or what it threw. *)
Definition setup_sample (disk : Disk) : result Disk :=
  fold_left (fun acc sample =>
               match acc with
               | Ok disk' => setup_one disk' sample
               | Throw msg => Throw msg
               end)
            samples (Ok disk).

End Setup.

(** The disk of the sample deployment when the server has started,
    with [BASE_DIR] created and empty, and the disk [/setup-sample]
    leaves behind. *)
Module SampleDisk.

Definition started : Disk := {[ js "/srv/app/files" := Dir ]}.

Definition installed : Disk :=
  <[js "/srv/app/files/notes/readme.md" := File Sample.readme]>
    (<[js "/srv/app/files/notes" := Dir]>
       (<[js "/srv/app/files/hello.txt" := File Sample.hello]> started)).

End SampleDisk.

End PathGuard.

(** ** The auth lab: users, the session store and the three routes *)

Module Auth.

Local Open Scope Z_scope.

Record User : Type := mkUser {
  id : Z;
  username : jsstring;
  passwordHash : jsstring
}.

(** The value stored under a token:
    [Object.assign(Object.create(null), { userId, expires })]. *)
Record Session : Type := mkSession {
  userId : Z;
  expires : Z
}.

(** [const sessions = {}] is an ordinary object: [sessions[k]] finds the
    own property [k] and otherwise what [Object.prototype] provides
    under that name, while [delete sessions[k]] and
    [sessions[k] = v] act on own properties only. *)
Definition object_prototype_names : list jsstring :=
  map js ["constructor"; "__proto__"; "hasOwnProperty"; "isPrototypeOf";
          "propertyIsEnumerable"; "toLocaleString"; "toString"; "valueOf";
          "__defineGetter__"; "__defineSetter__"; "__lookupGetter__";
          "__lookupSetter__"]%string.

Definition inherited (name : jsstring) : bool :=
  bool_decide (name ∈ object_prototype_names).

(** What [sessions[token]] evaluates to when it is truthy. *)
Inductive Slot : Type :=
  | Stored (s : Session)        (* an own property, a session record *)
  | Builtin (name : jsstring)   (* the function or object inherited under [name] *)
  | Number (e : Z).             (* [Object.prototype.expires], once written *)

(** The mutable state of the process and the record of its calls. *)
Record World : Type := mkWorld {
  sessions : gmap jsstring Session;   (* own properties of [sessions] *)
  builtin_expires : gmap jsstring Z;  (* [expires] properties written on inherited objects *)
  ticks : nat;                        (* calls of [Date.now] so far *)
  draws : nat;                        (* calls of [crypto.randomBytes] so far *)
  compare_log : list (jsstring * jsstring)  (* arguments of the calls of [bcrypt.compare] *)
}.

Definition initial : World := mkWorld ∅ ∅ 0 0 [].

Definition set_sessions (f : gmap jsstring Session → gmap jsstring Session)
    (w : World) : World :=
  mkWorld (f (sessions w)) (builtin_expires w) (ticks w) (draws w)
    (compare_log w).

Definition set_builtin_expires (f : gmap jsstring Z → gmap jsstring Z)
    (w : World) : World :=
  mkWorld (sessions w) (f (builtin_expires w)) (ticks w) (draws w)
    (compare_log w).

(** Computations over the world. *)
Definition M (A : Type) : Type := World → A * World.

Definition ret {A} (a : A) : M A := fun w => (a, w).

Definition bind {A B} (m : M A) (k : A → M B) : M B :=
  fun w => let '(a, w') := m w in k a w'.

Notation "'do' x <- m ; k" := (bind m (fun x => k))
  (at level 10, x name, m at level 100, k at level 200,
   format "'[v' 'do'  x  <-  m ; '/' k ']'").
Notation "'run' m ; k" := (bind m (fun _ => k))
  (at level 10, m at level 100, k at level 200,
   format "'[v' 'run'  m ; '/' k ']'").

(** The world once one more call of [bcrypt.compare] is on record. *)
Definition after_compare (data hash : jsstring) (w : World) : World :=
  mkWorld (sessions w) (builtin_expires w) (ticks w) (draws w)
    (compare_log w ++ [(data, hash)]).

Definition get : M World := fun w => (w, w).
Definition modify (f : World → World) : M unit := fun w => (tt, f w).

(** [sessions[token]]; [None] stands for a falsy value.  Once
    [requireAuth] has written [expires] on [Object.prototype], that
    number is what [sessions["expires"]] finds. *)
Definition lookup_slot (w : World) (token : jsstring) : option Slot :=
  match sessions w !! token with
  | Some s => Some (Stored s)
  | None =>
      if inherited token then Some (Builtin token)
      else if str_eqb token (js "expires") then
        match builtin_expires w !! js "__proto__" with
        | Some e => if e =? 0 then None else Some (Number e)
        | None => None
        end
      else None
  end.

(** [session.expires]; [None] is [undefined].  An inherited function
    has the property when it was written on it or on [Object.prototype],
    which [sessions["__proto__"]] denotes. *)
Definition slot_expires (w : World) (slot : Slot) : option Z :=
  match slot with
  | Stored s => Some (expires s)
  | Builtin name =>
      match builtin_expires w !! name with
      | Some e => Some e
      | None => builtin_expires w !! js "__proto__"
      end
  | Number _ => builtin_expires w !! js "__proto__"
  end.

(** [session.userId]; [None] is [undefined]. *)
Definition slot_userId (slot : Slot) : option Z :=
  match slot with
  | Stored s => Some (userId s)
  | Builtin _ => None
  | Number _ => None
  end.

(** [session.expires = e], where [session] is [sessions[token]]; on a
    number the assignment has no effect (the module is not strict). *)
Definition write_expires (token : jsstring) (slot : Slot) (e : Z) : M unit :=
  match slot with
  | Stored s =>
      modify (set_sessions (insert token (mkSession (userId s) e)))
  | Builtin name => modify (set_builtin_expires (insert name e))
  | Number _ => ret tt
  end.

(** A string is truthy when it is not empty; [undefined] is falsy. *)
Definition truthy (token : option jsstring) : option jsstring :=
  match token with
  | Some (c :: t) => Some (c :: t)
  | _ => None
  end.

Definition hexdigit (n : N) : N := (if n <? 10 then 48 + n else 87 + n)%N.

(** [buf.toString("hex")] *)
Definition toString_hex (buf : list N) : jsstring :=
  flat_map (fun b => [hexdigit (b / 16); hexdigit (b mod 16)]%N) buf.

Definition TTL : Z := 30 * 60 * 1000.

Inductive Body : Type :=
  | Authenticated (authenticated : bool) (name : option jsstring)
  | Success (success : bool) (message : option jsstring).

Record CookieOptions : Type := mkOptions {
  httpOnly : bool;
  secure : bool;
  sameSite : jsstring;
  maxAge : Z
}.

Inductive CookieOp : Type :=
  | NoCookie
  | ClearCookie (name : jsstring)
  | SetCookie (name value : jsstring) (options : CookieOptions).

Record Response : Type := mkResponse {
  status : N;
  body : Body;
  cookie : CookieOp
}.

(** What the middleware did: answered itself, or called [next()] after
    setting [req.userId]. *)
Inductive Outcome : Type :=
  | Responded (r : Response)
  | Next (req_userId : option Z).

(** A field of [req.body] as the body parsers leave it. *)
Inductive Value : Type :=
  | Nullish                  (* no such field ([undefined]), or [null] *)
  | IsString (s : jsstring)
  | OtherValue.               (* a number, a boolean, an array or an object *)

Section Server.

(** The clock behind [Date.now], the bytes behind
    [crypto.randomBytes] (call, position) and bcrypt. *)
Variable clock : nat → Z.
Variable entropy : nat → nat → N.
Variable bcrypt_hashSync : jsstring → N → jsstring.
Variable bcrypt_compare : jsstring → jsstring → bool.

Definition Date_now : M Z :=
  fun w => (clock (ticks w),
            mkWorld (sessions w) (builtin_expires w) (S (ticks w))
              (draws w) (compare_log w)).

Definition randomBytes (size : nat) : M (list N) :=
  fun w => (map (fun i => (entropy (draws w) i mod 256)%N) (seq 0 size),
            mkWorld (sessions w) (builtin_expires w) (ticks w)
              (S (draws w)) (compare_log w)).

(** [await bcrypt.compare(data, hash)] *)
Definition compare (data hash : jsstring) : M bool :=
  fun w => (bcrypt_compare data hash, after_compare data hash w).

Definition users : list User :=
  [ mkUser 1 (js "student") (bcrypt_hashSync (js "password123") 12) ].

Definition findUser (name : jsstring) : option User :=
  find (fun u => str_eqb (username u) name) users.

Definition createSession (uid : Z) : M jsstring :=
  do buf <- randomBytes 32;
  let token := toString_hex buf in
  do now <- Date_now;
  let expires := now + 30 * 60 * 1000 in
  run modify (set_sessions (insert token (mkSession uid expires)));
  ret token.

Definition rotateSession (oldToken : option jsstring) (uid : Z)
    : M jsstring :=
  do w <- get;
  run match truthy oldToken with
      | Some old =>
          match lookup_slot w old with
          | Some _ => modify (set_sessions (delete old))
          | None => ret tt
          end
      | None => ret tt
      end;
  createSession uid.

Definition unauthenticated (c : CookieOp) : Response :=
  mkResponse 401 (Authenticated false None) c.

(** [requireAuth]; [req_cookie] is [req.cookies.session]. *)
Definition requireAuth (req_cookie : option jsstring) : M Outcome :=
  match truthy req_cookie with
  | None => ret (Responded (unauthenticated NoCookie))
  | Some token =>
      do w <- get;
      match lookup_slot w token with
      | None => ret (Responded (unauthenticated NoCookie))
      | Some session =>
          do now <- Date_now;
          if match slot_expires w session with
             | Some e => now >? e
             | None => false       (* a comparison with [undefined] *)
             end
          then
            run modify (set_sessions (delete token));
            ret (Responded (unauthenticated (ClearCookie (js "session"))))
          else
            do now' <- Date_now;
            run write_expires token session (now' + 30 * 60 * 1000);
            ret (Next (slot_userId session))
      end
  end.

(** [app.get("/api/me", requireAuth, ...)]; reading [username] of
    [undefined] throws. *)
Definition me (req_cookie : option jsstring) : M (result Response) :=
  do a <- requireAuth req_cookie;
  match a with
  | Responded r => ret (Ok r)
  | Next req_userId =>
      match find (fun u => bool_decide (Some (id u) = req_userId)) users with
      | Some user =>
          ret (Ok (mkResponse 200
                     (Authenticated true (Some (username user))) NoCookie))
      | None =>
          ret (Throw "TypeError: Cannot read properties of undefined")
      end
  end.

Definition INVALID : Response :=
  mkResponse 401
    (Success false (Some (js "Invalid username or password"))) NoCookie.

(** [app.post("/api/login", ...)] on a body whose fields [username]
    and [password] are strings ([login_body] below takes any body);
    the handler is taken to run to its end once [bcrypt.compare] has
    answered, with no other request served in between. *)
Definition login (name password : jsstring) (req_cookie : option jsstring)
    : M Response :=
  match findUser name with
  | None => ret INVALID
  | Some user =>
      do match_ <- compare password (passwordHash user);
      if negb match_ then ret INVALID
      else
        let oldToken := req_cookie in
        do newToken <- rotateSession oldToken (id user);
        ret (mkResponse 200 (Success true None)
               (SetCookie (js "session") newToken
                  (mkOptions true true (js "strict") (30 * 60 * 1000))))
  end.

(** [u.username === username] holds of no value that is not a string. *)
Definition findUser_value (name : Value) : option User :=
  match name with
  | IsString s => findUser s
  | Nullish => None
  | OtherValue => None
  end.

(** [await bcrypt.compare(data, hash)] for any [data]: when [data] is
    not a string the promise is rejected before anything is hashed,
    and the [await] throws. *)
Definition compare_value (data : Value) (hash : jsstring) : M (result bool) :=
  match data with
  | IsString s => do match_ <- compare s hash; ret (Ok match_)
  | Nullish => ret (Throw "data and hash arguments required")
  | OtherValue => ret (Throw "data and hash must be strings")
  end.

(** [app.post("/api/login", ...)] on any body.  The handler is
    [async] and catches nothing: when the [await] throws, its promise
    is rejected and it writes no response, which [Throw] stands for.
    On a body whose two fields are strings this is [login]. *)
Definition login_body (name password : Value) (req_cookie : option jsstring)
    : M (result Response) :=
  match findUser_value name with
  | None => ret (Ok INVALID)
  | Some user =>
      do match_ <- compare_value password (passwordHash user);
      match match_ with
      | Throw msg => ret (Throw msg)
      | Ok match_ =>
          if negb match_ then ret (Ok INVALID)
          else
            let oldToken := req_cookie in
            do newToken <- rotateSession oldToken (id user);
            ret (Ok (mkResponse 200 (Success true None)
                       (SetCookie (js "session") newToken
                          (mkOptions true true (js "strict")
                             (30 * 60 * 1000)))))
      end
  end.

(** [app.post("/api/logout", ...)] *)
Definition logout (req_cookie : option jsstring) : M Response :=
  do w <- get;
  run match truthy req_cookie with
      | Some token =>
          match lookup_slot w token with
          | Some _ => modify (set_sessions (delete token))
          | None => ret tt
          end
      | None => ret tt
      end;
  ret (mkResponse 200 (Success true None) (ClearCookie (js "session"))).

(** The requests of a client, and the server handling them in turn. *)
Inductive Request : Type :=
  | PostLogin (name password : jsstring) (req_cookie : option jsstring)
  | GetMe (req_cookie : option jsstring)
  | PostLogout (req_cookie : option jsstring).

Definition serve (r : Request) : M unit :=
  match r with
  | PostLogin name password req_cookie =>
      run login name password req_cookie; ret tt
  | GetMe req_cookie => run me req_cookie; ret tt
  | PostLogout req_cookie => run logout req_cookie; ret tt
  end.

Fixpoint serve_all (rs : list Request) : M unit :=
  match rs with
  | [] => ret tt
  | r :: rs' => run serve r; serve_all rs'
  end.

(** The token that the [n]-th call of [crypto.randomBytes] leads to. *)
Definition token_of_draw (n : nat) : jsstring :=
  toString_hex (map (fun i => (entropy n i mod 256)%N) (seq 0 32)).

(** [w'] comes after [w]: the keys of the store that are new are
    tokens drawn in between. *)
Definition evolves (w w' : World) : Prop :=
  (draws w ≤ draws w')%nat
  ∧ ∀ k, is_Some (sessions w' !! k) →
      is_Some (sessions w !! k)
      ∨ ∃ n, (draws w ≤ n < draws w')%nat ∧ k = token_of_draw n.

End Server.

Arguments token_of_draw : simpl never.

(** The world in which [createSession] runs inside [rotateSession]. *)
Definition after_delete (oldToken : option jsstring) (w : World) : World :=
  match truthy oldToken with
  | Some old =>
      match lookup_slot w old with
      | Some _ => set_sessions (delete old) w
      | None => w
      end
  | None => w
  end.

(** The shape of an issued token: 64 lower-case hexadecimal digits. *)
Definition lower_hex (c : N) : bool :=
  (((48 <=? c) && (c <=? 57)) || ((97 <=? c) && (c <=? 102)))%N.

Definition is_token (k : jsstring) : bool :=
  (length k =? 64)%nat && forallb lower_hex k.

(** Every own property of [sessions] was put there by [createSession]. *)
Definition store_ok (w : World) : Prop :=
  ∀ k s, sessions w !! k = Some s → is_token k = true.

(** Stand-ins to run the server on: a clock that advances by one
    millisecond, or by one hour, from one reading to the next, bytes
    that count up, and a bcrypt that only prefixes its input. *)
Module Sample.

Definition steady (n : nat) : Z := 1700000000000 + Z.of_nat n.
Definition hourly (n : nat) : Z := 1700000000000 + 3600000 * Z.of_nat n.
Definition entropy (call i : nat) : N := N.of_nat (17 * call + i).
Definition bcrypt_hashSync (data : jsstring) (rounds : N) : jsstring :=
  js "$2b$" ++ data.
Definition bcrypt_compare (data hash : jsstring) : bool :=
  str_eqb hash (js "$2b$" ++ data).

(** The world after the student has logged in on a fresh server. *)
Definition logged_in (clock : nat → Z) : Response * World :=
  login clock entropy bcrypt_hashSync bcrypt_compare
    (js "student") (js "password123") None initial.

Definition issued : jsstring := token_of_draw entropy 0.

(** A well-formed token that this server never issues before its
    second login. *)
Definition never_issued : jsstring := token_of_draw entropy 1.

(** Bytes whose first draw differs from all later ones, and the world
    after the student has logged in with them. *)
Definition once (call i : nat) : N :=
  match call with
  | O => 1
  | S _ => 0
  end.

Definition first_token : jsstring := token_of_draw once 0.

Definition after_first_login (clock : nat → Z) : World :=
  (login clock once bcrypt_hashSync bcrypt_compare
     (js "student") (js "password123") None initial).2.

End Sample.

End Auth.

(** * Properties *)

(** ** Strings *)

Section StringFacts.

Lemma startsWith_prefix (s p : jsstring) :
  startsWith s p = true ↔ ∃ k, s = p ++ k.
Proof.
  revert s. induction p as [|b p IH]; intros s; simpl.
  - split; [intros _; by exists s | done].
  - destruct s as [|a s]; simpl.
    + split; [done | intros [k Hk]; discriminate].
    + rewrite andb_true_iff, N.eqb_eq, IH. split.
      * intros [-> [k ->]]. eauto.
      * intros [k Hk]. injection Hk as -> ->. eauto.
Qed.

Lemma includes_infix (s p : jsstring) :
  includes s p = true ↔ ∃ a b, s = a ++ p ++ b.
Proof.
  induction s as [|c s IH]; simpl.
  - rewrite orb_false_r, startsWith_prefix. split.
    + intros [k Hk]. exists [], k. done.
    + intros (a & b & Hab). destruct a; [|discriminate]. eauto.
  - rewrite orb_true_iff, startsWith_prefix, IH. split.
    + intros [[k Hk] | (a & b & ->)].
      * exists [], k. done.
      * exists (c :: a), b. done.
    + intros (a & b & Hab). destruct a as [|c' a].
      * left. eauto.
      * right. injection Hab as _ ->. eauto.
Qed.

Lemma startsWith_longer (s p : jsstring) :
  (length s < length p)%nat → startsWith s p = false.
Proof.
  intros Hlen. destruct (startsWith s p) eqn:E; [|done].
  apply startsWith_prefix in E as [k ->].
  rewrite length_app in Hlen. lia.
Qed.

Lemma ltrim_keep (pre post : jsstring) (x : N) :
  is_space x = false → ltrim (pre ++ x :: post) = ltrim pre ++ x :: post.
Proof.
  intros Hx. induction pre as [|c pre IH]; simpl.
  - by rewrite Hx.
  - destruct (is_space c); done.
Qed.

Lemma rtrim_keep (pre post : jsstring) (x : N) :
  is_space x = false → rtrim (pre ++ x :: post) = pre ++ x :: rtrim post.
Proof.
  intros Hx. unfold rtrim.
  rewrite rev_app_distr. simpl. rewrite <- app_assoc. simpl.
  rewrite ltrim_keep by done.
  rewrite rev_app_distr. simpl. rewrite rev_involutive.
  by rewrite <- app_assoc.
Qed.

(** Trimming keeps everything from the first to the last code unit
    that is not white space. *)
Lemma trim_keep (pre post : jsstring) (x : N) :
  is_space x = false →
  trim (pre ++ x :: post) = ltrim pre ++ x :: rtrim post.
Proof.
  intros Hx. unfold trim. rewrite ltrim_keep by done.
  by apply rtrim_keep.
Qed.

Lemma trim_keep2 (pre post : jsstring) (x y : N) :
  is_space x = false → is_space y = false →
  trim (pre ++ x :: y :: post) = ltrim pre ++ x :: y :: rtrim post.
Proof.
  intros Hx Hy. rewrite trim_keep by done. f_equal. f_equal.
  by apply (rtrim_keep []).
Qed.

End StringFacts.

(** ** The guarded read: the filter, decoding and resolution *)

Section PathFacts.

Import PathGuard.

Lemma SAFE_FILENAME_test_true (value : jsstring) :
  SAFE_FILENAME_test value = true ↔
  value ≠ [] ∧ ∀ c, In c value → safe_char c = true.
Proof.
  unfold SAFE_FILENAME_test. destruct value as [|c v].
  - split; [done | intros [? _]; done].
  - rewrite forallb_forall. split; [intros H; split; [done | exact H] | intros [_ H]; exact H].
Qed.

Lemma sanitizeFilename_Ok (value r : jsstring) :
  sanitizeFilename value = Ok r →
  r = value ∧ SAFE_FILENAME_test value = true
  ∧ includes value (js "..") = false ∧ startsWith value (js "/") = false.
Proof.
  unfold sanitizeFilename.
  destruct (SAFE_FILENAME_test value); cbn [negb]; [|done].
  destruct (includes value (js "..")); [done|].
  destruct (startsWith value (js "/")); [done|].
  intros [= <-]. done.
Qed.

Lemma sanitizeFilename_Ok_intro (value : jsstring) :
  SAFE_FILENAME_test value = true →
  includes value (js "..") = false → startsWith value (js "/") = false →
  sanitizeFilename value = Ok value.
Proof. unfold sanitizeFilename. by intros -> -> ->. Qed.

(** The three messages the filter throws. *)
Lemma sanitizeFilename_Throw (value : jsstring) (msg : string) :
  sanitizeFilename value = Throw msg →
  msg = "Illegal characters in filename"%string
  ∨ msg = "Path traversal attempt"%string
  ∨ msg = "Absolute paths not allowed"%string.
Proof.
  unfold sanitizeFilename.
  destruct (SAFE_FILENAME_test value); cbn [negb]; [|intros [= <-]; auto].
  destruct (includes value (js "..")); [intros [= <-]; auto|].
  destruct (startsWith value (js "/")); [intros [= <-]; auto|done].
Qed.

(** A string without [%] is decoded to itself. *)
Lemma decode_without_percent (s : jsstring) :
  ¬ In percent s → decode 0 s = Ok s.
Proof.
  induction s as [|c s IH]; intros Hs; simpl; [done|].
  destruct (N.eqb_spec c percent) as [->|_].
  - exfalso. apply Hs. by left.
  - rewrite IH; [done|]. intros H. apply Hs. by right.
Qed.

Lemma safe_without_percent (value : jsstring) :
  SAFE_FILENAME_test value = true → ¬ In percent value.
Proof.
  intros [_ H]%SAFE_FILENAME_test_true Hin.
  apply H in Hin. discriminate.
Qed.

(** What the chain lets through: the trimmed field, which the filter
    returned unchanged. *)
Lemma run_chain_Valid (field : Field) (filename : jsstring) :
  run_chain field = Valid filename →
  ∃ s, field = Str s ∧ filename = trim s
       ∧ sanitizeFilename filename = Ok filename.
Proof.
  destruct field as [| |s]; simpl; [done..|].
  unfold custom_errors.
  destruct (sanitizeFilename (trim s)) as [r|msg] eqn:E.
  - apply sanitizeFilename_Ok in E as E'. destruct E' as (-> & E').
    destruct (trim s) as [|c v] eqn:Et; simpl; [done|].
    intros [= <-]. exists s. by rewrite Et.
  - destruct (trim s); simpl; done.
Qed.

Lemma run_chain_Throw (s : jsstring) (msg : string) :
  sanitizeFilename (trim s) = Throw msg →
  ∃ errors, run_chain (Str s) = Invalid errors ∧ In msg errors.
Proof.
  intros E. simpl. unfold custom_errors. rewrite E.
  destruct (trim s); simpl; eexists; (split; [done|]); simpl; auto.
Qed.

Lemma read_route_Invalid cwd dirname fs field errors :
  run_chain field = Invalid errors →
  read_route cwd dirname fs field = (ValidationFailed errors, []).
Proof. unfold read_route. by intros ->. Qed.

(** *** Splitting and joining on the separator *)

Lemma split_sep_cons (s : jsstring) : ∃ seg segs, split_sep s = seg :: segs.
Proof.
  induction s as [|c s (seg & segs & IH)]; simpl; [eauto|].
  destruct (c =? slash); [eauto|]. rewrite IH. eauto.
Qed.

Lemma split_sep_slash (r : jsstring) :
  split_sep (slash :: r) = [] :: split_sep r.
Proof. cbn [split_sep]. by rewrite N.eqb_refl. Qed.

Lemma split_sep_app (a b : jsstring) :
  split_sep (a ++ slash :: b) = split_sep a ++ split_sep b.
Proof.
  induction a as [|c a IH]; simpl.
  - done.
  - destruct (c =? slash); [by rewrite IH|].
    rewrite IH. destruct (split_sep_cons a) as (seg & segs & ->). done.
Qed.

Lemma split_sep_no_slash (s : jsstring) :
  Forall (λ seg, slash ∉ seg) (split_sep s).
Proof.
  induction s as [|c s IH]; simpl.
  - repeat constructor. apply not_elem_of_nil.
  - destruct (N.eqb_spec c slash) as [->|Hc].
    + constructor; [apply not_elem_of_nil | done].
    + destruct (split_sep s) as [|seg segs];
        inversion IH as [|? ? Hseg Hsegs]; subst.
      * repeat constructor. apply not_elem_of_cons. split; [done|].
        apply not_elem_of_nil.
      * constructor; [|done]. apply not_elem_of_cons. by split.
Qed.

Lemma split_sep_segment (seg : jsstring) :
  slash ∉ seg → split_sep seg = [seg].
Proof.
  induction seg as [|c seg IH]; intros H; simpl; [done|].
  destruct (N.eqb_spec c slash) as [->|_]; [set_solver|].
  rewrite IH; [done | set_solver].
Qed.

Lemma split_join (segs : list jsstring) :
  segs ≠ [] → Forall (λ seg, slash ∉ seg) segs →
  split_sep (join_sep segs) = segs.
Proof.
  induction segs as [|seg segs IH]; intros Hne Hall; [done|].
  inversion Hall; subst. destruct segs as [|seg' segs].
  - simpl. by apply split_sep_segment.
  - change (join_sep (seg :: seg' :: segs))
      with (seg ++ slash :: join_sep (seg' :: segs)).
    rewrite split_sep_app, split_sep_segment by done.
    rewrite IH; done.
Qed.

Lemma join_last (segs : list jsstring) :
  segs ≠ [] → Forall proper segs →
  ∃ c, last (join_sep segs) = Some c ∧ c ≠ slash.
Proof.
  induction segs as [|seg segs IH]; intros Hne Hall; [done|].
  inversion Hall as [|? ? [Hseg Hno] Hrest]; subst.
  destruct segs as [|seg' segs].
  - simpl. destruct (last seg) as [c|] eqn:E.
    + exists c. split; [done|]. intros ->.
      apply last_Some in E as [l' ->]. set_solver.
    + apply last_None in E. done.
  - change (join_sep (seg :: seg' :: segs))
      with (seg ++ slash :: join_sep (seg' :: segs)).
    destruct IH as (c & Hc & Hne'); [done..|].
    exists c. split; [|done].
    rewrite last_app_cons, last_cons, Hc. done.
Qed.

End PathFacts.

(** ** Normalization and [path.resolve] *)

Section ResolveFacts.

Import PathGuard.

Lemma str_eqb_eq (s t : jsstring) : str_eqb s t = true ↔ s = t.
Proof. apply bool_decide_eq_true. Qed.

Lemma str_eqb_neq (s t : jsstring) : str_eqb s t = false ↔ s ≠ t.
Proof. apply bool_decide_eq_false. Qed.

Lemma proper_dotdot : proper dotdot.
Proof.
  split; [done|]. intros H. repeat (apply elem_of_cons in H as [H|H]; [done|]).
  by apply elem_of_nil in H.
Qed.

Lemma plain_files : plain (js "files").
Proof.
  split; [split|]; [done | | split; done].
  intros H. repeat (apply elem_of_cons in H as [H|H]; [done|]).
  by apply elem_of_nil in H.
Qed.

Lemma norm_step_empty (allow : bool) (stack : list jsstring) :
  norm_step allow stack [] = stack.
Proof. done. Qed.

Lemma norm_step_dot (allow : bool) (stack : list jsstring) :
  norm_step allow stack [dot] = stack.
Proof. done. Qed.

Lemma norm_step_push (stack : list jsstring) (seg : jsstring) :
  plain seg → norm_step false stack seg = seg :: stack.
Proof.
  intros [[Hne _] [Hdot Hdd]]. unfold norm_step.
  apply str_eqb_neq in Hne, Hdot, Hdd. by rewrite Hne, Hdot, Hdd.
Qed.

Lemma norm_step_proper (allow : bool) (stack : list jsstring) (seg : jsstring) :
  slash ∉ seg → Forall proper stack →
  Forall proper (norm_step allow stack seg).
Proof.
  intros Hseg Hstack. unfold norm_step.
  destruct (str_eqb seg []) eqn:E0; [done|].
  destruct (str_eqb seg [dot]) eqn:E1; [done|]. cbn [orb].
  destruct (str_eqb seg dotdot) eqn:E2.
  - destruct stack as [|top below].
    + destruct allow; repeat constructor; apply proper_dotdot.
    + inversion Hstack; subst.
      destruct (str_eqb top dotdot), allow; try done.
      constructor; [apply proper_dotdot | done].
  - constructor; [|done]. split; [by apply str_eqb_neq | done].
Qed.

Lemma norm_step_plain (stack : list jsstring) (seg : jsstring) :
  slash ∉ seg → Forall plain stack →
  Forall plain (norm_step false stack seg).
Proof.
  intros Hseg Hstack. unfold norm_step.
  destruct (str_eqb seg []) eqn:E0; [done|].
  destruct (str_eqb seg [dot]) eqn:E1; [done|]. cbn [orb].
  destruct (str_eqb seg dotdot) eqn:E2.
  - destruct stack as [|top below]; [done|].
    inversion Hstack; subst. by destruct (str_eqb top dotdot).
  - apply str_eqb_neq in E0, E1, E2. constructor; [|done]. repeat split; done.
Qed.

Lemma fold_norm_plain (segs stack : list jsstring) :
  Forall (λ seg, slash ∉ seg) segs → Forall plain stack →
  Forall plain (fold_left (norm_step false) segs stack).
Proof.
  revert stack. induction segs as [|seg segs IH]; intros stack Hs Hst; [done|].
  inversion Hs; subst. simpl. apply IH; [done|].
  by apply norm_step_plain.
Qed.

Lemma fold_norm_push (segs stack : list jsstring) :
  Forall plain segs →
  fold_left (norm_step false) segs stack = rev segs ++ stack.
Proof.
  revert stack. induction segs as [|seg segs IH]; intros stack Hs; [done|].
  inversion Hs; subst. simpl.
  rewrite norm_step_push, IH by done. by rewrite <- app_assoc.
Qed.

Lemma plain_no_slash (segs : list jsstring) :
  Forall plain segs → Forall (λ seg, slash ∉ seg) segs.
Proof. intros H. eapply Forall_impl; [exact H|]. by intros seg [[_ ?] _]. Qed.

Lemma plain_proper (segs : list jsstring) :
  Forall plain segs → Forall proper segs.
Proof. intros H. eapply Forall_impl; [exact H|]. by intros seg [? _]. Qed.

(** The normal form of an absolute path is a sequence of plain
    segments. *)
Lemma normalize_plain (p : jsstring) :
  ∃ segs, Forall plain segs ∧ normalize false p = join_sep segs.
Proof.
  exists (rev (fold_left (norm_step false) (split_sep p) [])).
  split; [|done]. apply Forall_rev, fold_norm_plain; [|done].
  apply split_sep_no_slash.
Qed.

(** An absolute normal form ends in a separator only when it is the
    root. *)
Lemma absolute_no_trailing_sep (segs : list jsstring) :
  Forall plain segs →
  slash :: join_sep segs = [slash]
  ∨ ∃ c, last (slash :: join_sep segs) = Some c ∧ c ≠ slash.
Proof.
  intros Hsegs. destruct segs as [|seg segs]; [by left|]. right.
  destruct (join_last (seg :: segs)) as (c & Hc & Hne);
    [done | by apply plain_proper |].
  exists c. by rewrite last_cons, Hc.
Qed.

Lemma absolute_cons (base : jsstring) :
  startsWith base sep = true → ∃ b, base = slash :: b.
Proof. intros [k ->]%startsWith_prefix. by exists k. Qed.

(** Resolving against an absolute base: the path that is normalized. *)
Lemma path_resolve_absolute (cwd base x : jsstring) :
  startsWith base sep = true →
  ∃ rp, path_resolve cwd [base; x] = slash :: normalize false rp
        ∧ (∀ c t, x = c :: t → c ≠ slash →
           rp = base ++ slash :: x ++ [slash]).
Proof.
  intros [b ->]%absolute_cons. unfold path_resolve.
  change (rev [slash :: b; x] ++ [cwd]) with [x; slash :: b; cwd].
  destruct x as [|c t]; cbn [resolve_loop].
  - rewrite N.eqb_refl. eexists. split; [done|]. done.
  - destruct (N.eqb_spec c slash) as [->|Hc].
    + eexists. split; [done|]. intros ? ? [= <- <-]. done.
    + rewrite N.eqb_refl. eexists. split; [done|].
      intros ? ? [= <- <-] _. done.
Qed.

Section Base.

Variable cwd : jsstring.
Variable dirname : jsstring.
Hypothesis dirname_absolute : startsWith dirname sep = true.

(** [BASE_DIR] is the normal form of [__dirname] followed by [files]. *)
Lemma BASE_DIR_segments :
  ∃ segs, Forall plain segs
          ∧ BASE_DIR cwd dirname = slash :: join_sep (segs ++ [js "files"]).
Proof.
  destruct (path_resolve_absolute cwd dirname (js "files"))
    as (rp & Hrp & Hshape); [done|].
  specialize (Hshape _ _ eq_refl ltac:(done)). subst rp.
  exists (rev (fold_left (norm_step false) (split_sep dirname) [])).
  split.
  - apply Forall_rev, fold_norm_plain; [apply split_sep_no_slash | done].
  - unfold BASE_DIR. rewrite Hrp. unfold normalize.
    rewrite split_sep_app, fold_left_app.
    change (split_sep (js "files" ++ [slash])) with [js "files"; []].
    simpl fold_left at 1. rewrite norm_step_empty.
    rewrite norm_step_push by apply plain_files. done.
Qed.

Lemma BASE_DIR_absolute : startsWith (BASE_DIR cwd dirname) sep = true.
Proof.
  destruct BASE_DIR_segments as (segs & _ & ->).
  apply startsWith_prefix. by eexists.
Qed.

(** [BASE_DIR] does not end in a separator. *)
Lemma BASE_DIR_last :
  ∃ c, last (BASE_DIR cwd dirname) = Some c ∧ c ≠ slash.
Proof.
  destruct BASE_DIR_segments as (segs & Hsegs & ->).
  destruct (join_last (segs ++ [js "files"])) as (c & Hc & Hne).
  - by destruct segs.
  - apply plain_proper, Forall_app. split; [done|].
    repeat constructor; apply plain_files.
  - exists c. by rewrite last_cons, Hc.
Qed.

(** A relative input is normalized on top of the segments of
    [BASE_DIR]. *)
Lemma path_resolve_relative (x : jsstring) (c : N) (t : jsstring) :
  x = c :: t → c ≠ slash →
  ∃ segs, Forall plain segs
    ∧ BASE_DIR cwd dirname = slash :: join_sep (segs ++ [js "files"])
    ∧ path_resolve cwd [BASE_DIR cwd dirname; x]
      = slash :: join_sep (rev (fold_left (norm_step false) (split_sep x)
                                  (rev (segs ++ [js "files"])))).
Proof.
  intros Hx Hc. destruct BASE_DIR_segments as (segs & Hsegs & Hbase).
  exists segs. split; [done|]. split; [done|].
  destruct (path_resolve_absolute cwd (BASE_DIR cwd dirname) x)
    as (rp & -> & Hshape); [apply BASE_DIR_absolute|].
  specialize (Hshape _ _ Hx Hc). subst rp. rewrite Hbase.
  unfold normalize. f_equal. f_equal. f_equal.
  assert (Hall : Forall plain (segs ++ [js "files"])).
  { apply Forall_app. split; [done|]. repeat constructor; apply plain_files. }
  rewrite split_sep_app, split_sep_slash.
  rewrite split_join;
    [| by destruct segs | by apply plain_no_slash].
  rewrite split_sep_app. cbn [split_sep app fold_left].
  rewrite norm_step_empty.
  rewrite (fold_left_app _ (segs ++ [js "files"])).
  rewrite (fold_norm_push (segs ++ [js "files"])) by done.
  rewrite fold_left_app. cbn [fold_left].
  by rewrite norm_step_empty, app_nil_r.
Qed.

End Base.

End ResolveFacts.

(** ** The guarded read route *)

Section PathClaims.

Import PathGuard.

Lemma sanitizeFilename_rejects (value : jsstring) :
  SAFE_FILENAME_test value = false ∨ includes value (js "..") = true
  ∨ startsWith value (js "/") = true →
  ∃ msg, sanitizeFilename value = Throw msg.
Proof.
  unfold sanitizeFilename. intros H.
  destruct (SAFE_FILENAME_test value); cbn [negb]; [|eauto].
  destruct (includes value (js "..")); [eauto|].
  destruct (startsWith value (js "/")); [eauto|].
  destruct H as [H|[H|H]]; discriminate.
Qed.

Lemma unsafe_char_fails (value : jsstring) (c : N) :
  In c value → safe_char c = false → SAFE_FILENAME_test value = false.
Proof.
  intros Hin Hc. destruct (SAFE_FILENAME_test value) eqn:E; [|done].
  apply SAFE_FILENAME_test_true in E as [_ E]. apply E in Hin. congruence.
Qed.

(** Trimming removes neither a [..] nor a [%] nor a leading [/]. *)
Lemma trim_keeps_dotdot (s : jsstring) :
  includes s (js "..") = true → includes (trim s) (js "..") = true.
Proof.
  intros (a & b & ->)%includes_infix. apply includes_infix.
  change (a ++ js ".." ++ b) with (a ++ dot :: dot :: b).
  rewrite trim_keep2 by done. by exists (ltrim a), (rtrim b).
Qed.

Lemma trim_keeps_char (s : jsstring) (c : N) :
  is_space c = false → In c s → In c (trim s).
Proof.
  intros Hc (a & b & ->)%in_split. rewrite trim_keep by done.
  apply in_or_app. right. by left.
Qed.

Lemma trim_keeps_leading_sep (s : jsstring) :
  startsWith s (js "/") = true → startsWith (trim s) (js "/") = true.
Proof.
  intros [k ->]%startsWith_prefix. apply startsWith_prefix.
  change (js "/" ++ k) with ([] ++ slash :: k).
  rewrite trim_keep by done. by exists (rtrim k).
Qed.

Lemma includes_longer (s a b : jsstring) :
  includes s (a ++ b) = true → includes s a = true.
Proof.
  intros (x & y & ->)%includes_infix. apply includes_infix.
  exists x, (b ++ y). by rewrite <- app_assoc.
Qed.

(** C1. Every filename that contains [../], that begins with [/] or
    with a drive prefix such as [C:] (an absolute path), or that
    contains a [%] (hence any percent-encoded traversal sequence) is
    answered by [/read] with 400 and the validation errors, and no call
    into [fs] is made. *)
Theorem read_rejects_traversal_before_fs
    (cwd dirname : jsstring) (fs : jsstring → option Node) (s : jsstring) :
  includes s (js "../") = true
  ∨ (startsWith s (js "/") = true ∨ ∃ d rest, s = d :: colon :: rest)
  ∨ In percent s →
  ∃ errors,
    read_route cwd dirname fs (Str s) = (ValidationFailed errors, [])
    ∧ status (ValidationFailed errors) = 400.
Proof.
  intros H.
  assert (∃ msg, sanitizeFilename (trim s) = Throw msg) as [msg Hmsg].
  { apply sanitizeFilename_rejects. destruct H as [H|[[H|(d & rest & ->)]|H]].
    - right. left. apply trim_keeps_dotdot.
      by apply (includes_longer s (js "..") (js "/")).
    - right. right. by apply trim_keeps_leading_sep.
    - left. apply (unsafe_char_fails _ colon); [|done].
      apply trim_keeps_char; [done|]. right. by left.
    - left. apply (unsafe_char_fails _ percent); [|done].
      by apply trim_keeps_char. }
  destruct (run_chain_Throw s msg Hmsg) as (errors & Herr & _).
  exists errors. split; [|done]. by apply read_route_Invalid.
Qed.

Lemma read_rejects_traversal_before_fs_witness :
  ∃ errors,
    read_route Sample.cwd Sample.dirname Sample.fs
      (Str (js "%2e%2e%2f..%2fetc/passwd")) = (ValidationFailed errors, [])
    ∧ status (ValidationFailed errors) = 400.
Proof.
  apply read_rejects_traversal_before_fs.
  right. right. vm_compute. tauto.
Defined.

(** C7. The filter [sanitizeFilename] throws on every value that has
    a code unit outside the allow-list, on every value containing
    [..] and on every value beginning with the separator.  The chain
    runs it on the field before anything is decoded or resolved, and
    the route answers 400 with the thrown message, whatever the
    directories and the file system are; that answer is not the 403
    of the containment check. *)
Theorem filter_rejects_as_validation_failure (value : jsstring) :
  (∃ c, In c value ∧ safe_char c = false)
  ∨ includes value (js "..") = true ∨ startsWith value sep = true →
  ∃ msg,
    sanitizeFilename value = Throw msg
    ∧ (msg = "Illegal characters in filename"%string
       ∨ msg = "Path traversal attempt"%string
       ∨ msg = "Absolute paths not allowed"%string)
    ∧ ∀ s, trim s = value →
        ∃ errors,
          In msg errors
          ∧ (∀ cwd dirname fs,
               read_route cwd dirname fs (Str s)
               = (ValidationFailed errors, []))
          ∧ ValidationFailed errors ≠ TraversalDetected
          ∧ status (ValidationFailed errors) ≠ status TraversalDetected.
Proof.
  intros H.
  destruct (sanitizeFilename_rejects value) as [msg Hmsg].
  { destruct H as [(c & Hin & Hc)|[H|H]]; [left|right; by left|right; by right].
    by apply (unsafe_char_fails value c). }
  exists msg. split; [done|]. split; [by apply (sanitizeFilename_Throw value)|].
  intros s <-. destruct (run_chain_Throw s msg Hmsg) as (errors & Herr & Hin).
  exists errors. split; [done|]. split; [|done].
  intros cwd dirname fs. by apply read_route_Invalid.
Qed.

Lemma filter_rejects_as_validation_failure_witness :
  ∃ msg,
    sanitizeFilename (js "notes/../../etc/passwd") = Throw msg
    ∧ (msg = "Illegal characters in filename"%string
       ∨ msg = "Path traversal attempt"%string
       ∨ msg = "Absolute paths not allowed"%string)
    ∧ ∀ s, trim s = js "notes/../../etc/passwd" →
        ∃ errors,
          In msg errors
          ∧ (∀ cwd dirname fs,
               read_route cwd dirname fs (Str s)
               = (ValidationFailed errors, []))
          ∧ ValidationFailed errors ≠ TraversalDetected
          ∧ status (ValidationFailed errors) ≠ status TraversalDetected.
Proof.
  apply filter_rejects_as_validation_failure.
  right. left. vm_compute. reflexivity.
Defined.

(** C9. A value that the filter returns has no [%]; decoding it gives
    the same value back, so [resolveSafe] resolves the very string
    that was checked, and the decoded string passes the filter. *)
Theorem decode_after_filter_is_identity (value r : jsstring) :
  sanitizeFilename value = Ok r →
  ¬ In percent value
  ∧ decodeURIComponent value = Ok value
  ∧ (∀ cwd baseDir,
       resolveSafe cwd baseDir value = path_resolve cwd [baseDir; value])
  ∧ (∀ decoded, decodeURIComponent value = Ok decoded →
       decoded = value ∧ sanitizeFilename decoded = Ok decoded).
Proof.
  intros Hok. apply sanitizeFilename_Ok in Hok as Hparts.
  destruct Hparts as (-> & Hsafe & _).
  assert (Hno : ¬ In percent value) by by apply safe_without_percent.
  assert (Hdec : decodeURIComponent value = Ok value)
    by by apply decode_without_percent.
  split; [done|]. split; [done|]. split.
  - intros cwd baseDir. unfold resolveSafe. by rewrite Hdec.
  - intros decoded. rewrite Hdec. by intros [= <-].
Qed.

Lemma decode_after_filter_is_identity_witness :
  ¬ In percent (js "notes/readme.md")
  ∧ decodeURIComponent (js "notes/readme.md") = Ok (js "notes/readme.md")
  ∧ (∀ cwd baseDir,
       resolveSafe cwd baseDir (js "notes/readme.md")
       = path_resolve cwd [baseDir; js "notes/readme.md"])
  ∧ (∀ decoded, decodeURIComponent (js "notes/readme.md") = Ok decoded →
       decoded = js "notes/readme.md"
       ∧ sanitizeFilename decoded = Ok decoded).
Proof.
  apply (decode_after_filter_is_identity _ (js "notes/readme.md")).
  vm_compute. reflexivity.
Defined.

End PathClaims.

(** ** The containment check *)

Section Containment.

Import PathGuard.

Variable cwd : jsstring.
Variable dirname : jsstring.
Variable fs : jsstring → option Node.
Hypothesis dirname_absolute : startsWith dirname sep = true.

Local Abbreviation base := (BASE_DIR cwd dirname).

(** What [resolveSafe] returns is an absolute normal form. *)
Lemma resolveSafe_plain (filename : jsstring) :
  ∃ segs, Forall plain segs
          ∧ resolveSafe cwd base filename = slash :: join_sep segs.
Proof.
  unfold resolveSafe.
  destruct (path_resolve_absolute cwd base
              match decodeURIComponent filename with
              | Ok decoded => decoded
              | Throw _ => filename
              end) as (rp & -> & _).
  { by apply BASE_DIR_absolute. }
  destruct (normalize_plain rp) as (segs & Hsegs & ->). eauto.
Qed.

(** A resolved path that starts with [BASE_DIR + path.sep] is longer
    than it. *)
Lemma resolved_prefix_strict (filename : jsstring) :
  startsWith (resolveSafe cwd base filename) (base ++ sep) = true →
  strict_prefix (base ++ sep) (resolveSafe cwd base filename).
Proof.
  intros [k Hk]%startsWith_prefix. exists k. split; [|done].
  intros ->. rewrite app_nil_r in Hk.
  destruct (resolveSafe_plain filename) as (segs & Hsegs & Hr).
  destruct (absolute_no_trailing_sep segs Hsegs) as [H|(c & Hc & Hne)].
  - rewrite <- Hr, Hk in H.
    destruct (absolute_cons base) as [b Hb]; [by apply BASE_DIR_absolute|].
    rewrite Hb in H. destruct b; discriminate.
  - rewrite <- Hr, Hk in Hc. unfold sep in Hc. rewrite last_snoc in Hc.
    congruence.
Qed.

Lemma read_route_Valid (field : Field) (filename : jsstring) :
  run_chain field = Valid filename →
  read_route cwd dirname fs field =
    let normalized := resolveSafe cwd base filename in
    if negb (startsWith normalized (base ++ sep)) then (TraversalDetected, [])
    else match fs normalized with
         | None => (FileNotFound, [ExistsSync normalized])
         | Some (File content) =>
             (FileContent normalized content,
              [ExistsSync normalized; ReadFileSync normalized])
         | Some Dir =>
             (Uncaught "EISDIR: illegal operation on a directory, read",
              [ExistsSync normalized; ReadFileSync normalized])
         end.
Proof. unfold read_route. by intros ->. Qed.

(** C6. [BASE_DIR] does not end in a separator, so [BASE_DIR +
    path.sep] has exactly one.  Once the chain has let a filename
    through, the resolved path is handed to [fs] only if it starts
    with [BASE_DIR + path.sep], and it is then strictly longer; if it
    does not, the answer is 403 and [fs] is not called.  Every [fs]
    call of the route is on such a path, and a 403 is only ever given
    to a filename that passed the filter. *)
Theorem containment_is_final_gate (field : Field) :
  let out := read_route cwd dirname fs field in
  (∃ c, last base = Some c ∧ c ≠ slash)
  ∧ (∀ filename, run_chain field = Valid filename →
       let normalized := resolveSafe cwd base filename in
       (startsWith normalized (base ++ sep) = true →
          strict_prefix (base ++ sep) normalized
          ∧ fst out ≠ TraversalDetected
          ∧ snd out ≠ []
          ∧ ∀ op, In op (snd out) → op_path op = normalized)
       ∧ (startsWith normalized (base ++ sep) = false →
          out = (TraversalDetected, [])))
  ∧ (∀ op, In op (snd out) → strict_prefix (base ++ sep) (op_path op))
  ∧ (fst out = TraversalDetected →
       ∃ filename, run_chain field = Valid filename
         ∧ sanitizeFilename filename = Ok filename
         ∧ startsWith (resolveSafe cwd base filename) (base ++ sep) = false).
Proof.
  intros out. split; [by apply BASE_DIR_last|].
  destruct (run_chain field) as [errors|filename] eqn:Hchain.
  - assert (Hout : out = (ValidationFailed errors, []))
      by by apply read_route_Invalid.
    rewrite Hout. split; [done|]. split; [by intros op []|]. done.
  - assert (Hout := read_route_Valid field filename Hchain).
    fold out in Hout. cbn zeta in Hout.
    destruct (run_chain_Valid field filename Hchain) as (s & _ & _ & Hok).
    destruct (startsWith (resolveSafe cwd base filename) (base ++ sep))
      eqn:Hpre; cbn [negb] in Hout.
    + assert (Hstrict := resolved_prefix_strict filename Hpre).
      assert (Hops : fst out ≠ TraversalDetected ∧ snd out ≠ []
                     ∧ ∀ op, In op (snd out)
                         → op_path op = resolveSafe cwd base filename).
      { rewrite Hout.
        destruct (fs (resolveSafe cwd base filename)) as [[content|]|];
          (split; [done|]); (split; [done|]);
          intros op Hop; cbn in Hop; intuition (subst; done). }
      destruct Hops as (Hfst & Hsnd & Hops).
      split; [|split].
      * intros ? [= <-]. cbn zeta. rewrite Hpre. by split.
      * intros op Hop. by rewrite (Hops op Hop).
      * done.
    + rewrite Hout. split; [|split].
      * intros ? [= <-]. cbn zeta. rewrite Hpre. by split.
      * by intros op [].
      * intros _. by exists filename.
Qed.

(** C10, amended. Every filename that the chain lets through (so the
    filter has accepted it) and that resolves to [BASE_DIR] itself is
    answered with 403 and no [fs] call, because [BASE_DIR] does not
    start with [BASE_DIR + path.sep]; ["."] is such a filename, so the
    base directory is not readable through the route. *)
Theorem base_directory_is_refused :
  (∀ field filename,
     run_chain field = Valid filename →
     resolveSafe cwd base filename = base →
     sanitizeFilename filename = Ok filename
     ∧ startsWith base (base ++ sep) = false
     ∧ read_route cwd dirname fs field = (TraversalDetected, []))
  ∧ run_chain (Str (js ".")) = Valid (js ".")
  ∧ resolveSafe cwd base (js ".") = base
  ∧ read_route cwd dirname fs (Str (js ".")) = (TraversalDetected, []).
Proof.
  assert (Hshort : startsWith base (base ++ sep) = false).
  { apply startsWith_longer. rewrite length_app. simpl. lia. }
  assert (Hgen : ∀ field filename,
     run_chain field = Valid filename →
     resolveSafe cwd base filename = base →
     sanitizeFilename filename = Ok filename
     ∧ startsWith base (base ++ sep) = false
     ∧ read_route cwd dirname fs field = (TraversalDetected, [])).
  { intros field filename Hchain Hres.
    destruct (run_chain_Valid field filename Hchain) as (s & _ & _ & Hok).
    split; [done|]. split; [done|].
    rewrite (read_route_Valid field filename Hchain). cbn zeta.
    by rewrite Hres, Hshort. }
  assert (Hdot : resolveSafe cwd base (js ".") = base).
  { unfold resolveSafe.
    change (decodeURIComponent (js ".")) with (Ok (js ".")). cbn match.
    destruct (path_resolve_relative cwd dirname dirname_absolute
                (js ".") dot [] eq_refl) as (segs & _ & Hb & ->); [done|].
    rewrite Hb. change (split_sep (js ".")) with [[dot]].
    cbn [fold_left]. by rewrite norm_step_dot, rev_involutive. }
  split; [done|]. split; [done|]. split; [done|].
  by apply (Hgen (Str (js ".")) (js ".")).
Qed.

End Containment.

Lemma containment_is_final_gate_witness :
  let cwd := PathGuard.Sample.cwd in
  let dirname := PathGuard.Sample.dirname in
  let base := PathGuard.BASE_DIR cwd dirname in
  let field := PathGuard.Str (js "notes/readme.md") in
  let out := PathGuard.read_route cwd dirname PathGuard.Sample.fs field in
  startsWith dirname PathGuard.sep = true
  ∧ fst out = PathGuard.FileContent (js "/srv/app/files/notes/readme.md")
                PathGuard.Sample.readme
  ∧ ∀ op, In op (snd out) →
      PathGuard.strict_prefix (base ++ PathGuard.sep) (PathGuard.op_path op).
Proof.
  split; [reflexivity|]. split; [vm_compute; reflexivity|].
  apply (containment_is_final_gate PathGuard.Sample.cwd PathGuard.Sample.dirname
           PathGuard.Sample.fs eq_refl
           (PathGuard.Str (js "notes/readme.md"))).
Defined.

Lemma base_directory_is_refused_witness :
  startsWith PathGuard.Sample.dirname PathGuard.sep = true
  ∧ PathGuard.read_route PathGuard.Sample.cwd PathGuard.Sample.dirname
      PathGuard.Sample.fs (PathGuard.Str (js "."))
    = (PathGuard.TraversalDetected, []).
Proof.
  split; [reflexivity|].
  apply (base_directory_is_refused PathGuard.Sample.cwd
           PathGuard.Sample.dirname PathGuard.Sample.fs eq_refl).
Defined.

(** ** The session store *)

Section SessionFacts.

Import Auth.
Local Open Scope Z_scope.

Variable clock : nat → Z.
Variable entropy : nat → nat → N.
Variable bcrypt_hashSync : jsstring → N → jsstring.
Variable bcrypt_compare : jsstring → jsstring → bool.

Local Abbreviation createSession := (createSession clock entropy).
Local Abbreviation rotateSession := (rotateSession clock entropy).
Local Abbreviation requireAuth := (requireAuth clock).
Local Abbreviation login :=
  (login clock entropy bcrypt_hashSync bcrypt_compare).
Local Abbreviation me := (me clock bcrypt_hashSync).
Local Abbreviation serve :=
  (serve clock entropy bcrypt_hashSync bcrypt_compare).
Local Abbreviation serve_all :=
  (serve_all clock entropy bcrypt_hashSync bcrypt_compare).
Local Abbreviation findUser := (findUser bcrypt_hashSync).

(** *** Issued tokens *)

Lemma hexdigit_lower_hex (n : N) : (n < 16)%N → lower_hex (hexdigit n) = true.
Proof.
  intros Hn. unfold lower_hex, hexdigit.
  destruct (N.ltb_spec n 10).
  - apply orb_true_iff. left. apply andb_true_iff.
    split; apply N.leb_le; lia.
  - apply orb_true_iff. right. apply andb_true_iff.
    split; apply N.leb_le; lia.
Qed.

Lemma toString_hex_length (buf : list N) :
  length (toString_hex buf) = (2 * length buf)%nat.
Proof. induction buf as [|b buf IH]; simpl; [done | rewrite IH; lia]. Qed.

Lemma toString_hex_digits (buf : list N) :
  Forall (λ b, (b < 256)%N) buf → forallb lower_hex (toString_hex buf) = true.
Proof.
  induction 1 as [|b buf Hb _ IH]; [done|].
  cbn [toString_hex flat_map app forallb]. fold (toString_hex buf).
  rewrite !hexdigit_lower_hex, IH; [done| |].
  - apply N.mod_lt. done.
  - apply N.Div0.div_lt_upper_bound. lia.
Qed.

Lemma token_of_draw_is_token (n : nat) :
  is_token (token_of_draw entropy n) = true.
Proof.
  unfold is_token, token_of_draw. apply andb_true_iff. split.
  - rewrite toString_hex_length, length_map, length_seq. done.
  - apply toString_hex_digits, Forall_forall. intros b Hb.
    apply list_elem_of_In, in_map_iff in Hb as (i & <- & _).
    apply N.mod_lt. done.
Qed.

(** No issued token is a name that [Object.prototype] provides, and
    none is the empty string. *)
Lemma is_token_not_inherited (k : jsstring) :
  is_token k = true → inherited k = false.
Proof.
  intros Hk. destruct (inherited k) eqn:E; [|done].
  apply bool_decide_eq_true in E. unfold object_prototype_names in E.
  cbn [map] in E.
  repeat (apply elem_of_cons in E as [->|E]; [by vm_compute in Hk|]).
  by apply elem_of_nil in E.
Qed.

Lemma is_token_truthy (k : jsstring) :
  is_token k = true → truthy (Some k) = Some k.
Proof. by destruct k. Qed.

Lemma lookup_slot_stored (w : World) (token : jsstring) (s : Session) :
  sessions w !! token = Some s → lookup_slot w token = Some (Stored s).
Proof. unfold lookup_slot. by intros ->. Qed.

(** An issued token finds what the store holds under it and nothing
    else. *)
Lemma lookup_slot_token (w : World) (token : jsstring) :
  is_token token = true →
  lookup_slot w token = Stored <$> sessions w !! token.
Proof.
  intros Htok. unfold lookup_slot.
  destruct (sessions w !! token); [done|].
  rewrite (is_token_not_inherited token Htok).
  destruct (str_eqb token (js "expires")) eqn:E; [|done].
  apply bool_decide_eq_true in E. subst token. by vm_compute in Htok.
Qed.

Lemma lookup_slot_None (w : World) (token : jsstring) :
  is_token token = true → sessions w !! token = None →
  lookup_slot w token = None.
Proof. intros Htok Hnone. by rewrite lookup_slot_token, Hnone. Qed.

(** *** The operations as world transformers *)

Lemma createSession_eq (uid : Z) (w : World) :
  createSession uid w =
    (token_of_draw entropy (draws w),
     mkWorld (<[token_of_draw entropy (draws w) :=
                  mkSession uid (clock (ticks w) + TTL)]> (sessions w))
       (builtin_expires w) (S (ticks w)) (S (draws w)) (compare_log w)).
Proof. done. Qed.

Lemma rotateSession_eq (oldToken : option jsstring) (uid : Z) (w : World) :
  rotateSession oldToken uid w = createSession uid (after_delete oldToken w).
Proof.
  unfold Auth.rotateSession, after_delete, bind, get. cbn.
  destruct (truthy oldToken) as [old|]; [|done].
  destruct (lookup_slot w old); done.
Qed.

Lemma requireAuth_absent (req_cookie : option jsstring) (w : World) :
  (∀ token, truthy req_cookie = Some token → lookup_slot w token = None) →
  requireAuth req_cookie w = (Responded (unauthenticated NoCookie), w).
Proof.
  intros H. unfold Auth.requireAuth.
  destruct (truthy req_cookie) as [token|]; [|done].
  unfold bind, get. cbn. by rewrite (H token eq_refl).
Qed.

Lemma requireAuth_expired (w : World) (token : jsstring) (s : Session) :
  token ≠ [] → sessions w !! token = Some s → clock (ticks w) > expires s →
  requireAuth (Some token) w =
    (Responded (unauthenticated (ClearCookie (js "session"))),
     mkWorld (delete token (sessions w)) (builtin_expires w) (S (ticks w))
       (draws w) (compare_log w)).
Proof.
  intros Hne Hs Hexp. unfold Auth.requireAuth.
  destruct token as [|c t]; [done|]. cbn [truthy].
  unfold bind, get. cbn. rewrite (lookup_slot_stored w _ s Hs). cbn.
  destruct (Z.gtb_spec (clock (ticks w)) (expires s)); [done | lia].
Qed.

Lemma requireAuth_live (w : World) (token : jsstring) (s : Session) :
  token ≠ [] → sessions w !! token = Some s → clock (ticks w) ≤ expires s →
  requireAuth (Some token) w =
    (Next (Some (userId s)),
     mkWorld (<[token := mkSession (userId s) (clock (S (ticks w)) + TTL)]>
                (sessions w))
       (builtin_expires w) (S (S (ticks w))) (draws w) (compare_log w)).
Proof.
  intros Hne Hs Hexp. unfold Auth.requireAuth.
  destruct token as [|c t]; [done|]. cbn [truthy].
  unfold bind, get. cbn. rewrite (lookup_slot_stored w _ s Hs). cbn.
  destruct (Z.gtb_spec (clock (ticks w)) (expires s)); [lia | done].
Qed.

End SessionFacts.

(** ** How the world evolves under requests *)

Section Evolution.

Import Auth.
Local Open Scope Z_scope.

Variable clock : nat → Z.
Variable entropy : nat → nat → N.
Variable bcrypt_hashSync : jsstring → N → jsstring.
Variable bcrypt_compare : jsstring → jsstring → bool.

Local Abbreviation evolves := (evolves entropy).
Local Abbreviation createSession := (createSession clock entropy).
Local Abbreviation rotateSession := (rotateSession clock entropy).
Local Abbreviation requireAuth := (requireAuth clock).
Local Abbreviation login :=
  (login clock entropy bcrypt_hashSync bcrypt_compare).
Local Abbreviation me := (me clock bcrypt_hashSync).
Local Abbreviation logout := (@logout).
Local Abbreviation serve :=
  (serve clock entropy bcrypt_hashSync bcrypt_compare).
Local Abbreviation serve_all :=
  (serve_all clock entropy bcrypt_hashSync bcrypt_compare).
Local Abbreviation findUser := (findUser bcrypt_hashSync).

Lemma evolves_refl (w : World) : evolves w w.
Proof. split; [done | by left]. Qed.

Lemma evolves_trans (w1 w2 w3 : World) :
  evolves w1 w2 → evolves w2 w3 → evolves w1 w3.
Proof.
  intros [Hd12 H12] [Hd23 H23]. split; [lia|].
  intros k Hk. destruct (H23 k Hk) as [Hk2|(n & Hn & ->)].
  - destruct (H12 k Hk2) as [?|(n & Hn & ->)]; [by left|].
    right. exists n. split; [lia | done].
  - right. exists n. split; [lia | done].
Qed.

(** A step that draws no token and adds no key. *)
Lemma evolves_no_draw (w w' : World) :
  draws w' = draws w →
  (∀ k, is_Some (sessions w' !! k) → is_Some (sessions w !! k)) →
  evolves w w'.
Proof. intros Hd Hk. split; [lia|]. intros k ?. left. by apply Hk. Qed.

Lemma evolves_delete (w : World) (k : jsstring) :
  evolves w (set_sessions (delete k) w).
Proof.
  apply evolves_no_draw; [done|]. intros k'. cbn.
  rewrite lookup_delete. case_decide; [by intros [? ?] | done].
Qed.

Lemma draws_after_delete (oldToken : option jsstring) (w : World) :
  draws (after_delete oldToken w) = draws w.
Proof.
  unfold after_delete. destruct (truthy oldToken) as [old|]; [|done].
  by destruct (lookup_slot w old).
Qed.

Lemma evolves_after_delete (oldToken : option jsstring) (w : World) :
  evolves w (after_delete oldToken w).
Proof.
  unfold after_delete. destruct (truthy oldToken) as [old|];
    [|apply evolves_refl].
  destruct (lookup_slot w old); [apply evolves_delete | apply evolves_refl].
Qed.

Lemma evolves_createSession (uid : Z) (w : World) :
  evolves w (createSession uid w).2.
Proof.
  rewrite createSession_eq. split; [cbn; lia|]. intros k. cbn.
  rewrite lookup_insert. case_decide as Hk; [|by left].
  intros _. right. exists (draws w). split; [lia | done].
Qed.

Lemma evolves_rotateSession (oldToken : option jsstring) (uid : Z) (w : World) :
  evolves w (rotateSession oldToken uid w).2.
Proof.
  rewrite rotateSession_eq. eapply evolves_trans;
    [apply evolves_after_delete | apply evolves_createSession].
Qed.

Lemma lookup_slot_Stored (w : World) (token : jsstring) (s : Session) :
  lookup_slot w token = Some (Stored s) → sessions w !! token = Some s.
Proof.
  unfold lookup_slot. destruct (sessions w !! token); [by intros [= ->]|].
  destruct (inherited token); [done|].
  destruct (str_eqb token (js "expires")); [|done].
  destruct (builtin_expires w !! js "__proto__") as [e|]; [|done].
  by destruct (e =? 0).
Qed.

Lemma evolves_requireAuth (req_cookie : option jsstring) (w : World) :
  evolves w (requireAuth req_cookie w).2.
Proof.
  unfold Auth.requireAuth.
  destruct (truthy req_cookie) as [token|]; [|apply evolves_refl].
  unfold bind, get. cbn.
  destruct (lookup_slot w token) as [slot|] eqn:Hslot; [|apply evolves_refl].
  cbn.
  destruct (match slot_expires w slot with
            | Some e => clock (ticks w) >? e
            | None => false
            end); cbn.
  - apply evolves_no_draw; [done|]. intros k. cbn.
    rewrite lookup_delete. case_decide; [by intros [? ?] | done].
  - destruct slot as [s|name|e]; cbn.
    + apply lookup_slot_Stored in Hslot.
      apply evolves_no_draw; [done|]. intros k. cbn.
      rewrite lookup_insert. case_decide as Hk; [|done].
      subst k. by rewrite Hslot.
    + by apply evolves_no_draw.
    + by apply evolves_no_draw.
Qed.

Lemma evolves_me (req_cookie : option jsstring) (w : World) :
  evolves w (me req_cookie w).2.
Proof.
  unfold Auth.me, bind.
  assert (H := evolves_requireAuth req_cookie w).
  destruct (requireAuth req_cookie w) as [[r|u] w']; [exact H|].
  unfold ret. destruct (find _ (users bcrypt_hashSync)); exact H.
Qed.

Lemma evolves_logout (req_cookie : option jsstring) (w : World) :
  evolves w (Auth.logout req_cookie w).2.
Proof.
  unfold Auth.logout, bind, get. cbn.
  destruct (truthy req_cookie) as [token|]; cbn; [|apply evolves_refl].
  destruct (lookup_slot w token); cbn;
    [apply evolves_delete | apply evolves_refl].
Qed.

Lemma login_unknown (name password : jsstring) (req_cookie : option jsstring)
    (w : World) :
  findUser name = None → login name password req_cookie w = (INVALID, w).
Proof. unfold Auth.login. by intros ->. Qed.

Lemma login_wrong (name password : jsstring) (req_cookie : option jsstring)
    (user : User) (w : World) :
  findUser name = Some user →
  bcrypt_compare password (passwordHash user) = false →
  login name password req_cookie w
  = (INVALID, after_compare password (passwordHash user) w).
Proof.
  unfold Auth.login. intros -> Hcmp. unfold bind, compare.
  by rewrite Hcmp.
Qed.

Lemma login_success (name password : jsstring) (req_cookie : option jsstring)
    (user : User) (w : World) :
  findUser name = Some user →
  bcrypt_compare password (passwordHash user) = true →
  login name password req_cookie w
  = let '(newToken, w') :=
      rotateSession req_cookie (id user)
        (after_compare password (passwordHash user) w) in
    (mkResponse 200 (Success true None)
       (SetCookie (js "session") newToken
          (mkOptions true true (js "strict") TTL)), w').
Proof.
  unfold Auth.login. intros -> Hcmp. unfold bind at 1. unfold compare.
  rewrite Hcmp. cbn [negb]. unfold bind at 1.
  by destruct (rotateSession _ _ _).
Qed.

Lemma evolves_login (name password : jsstring) (req_cookie : option jsstring)
    (w : World) :
  evolves w (login name password req_cookie w).2.
Proof.
  destruct (findUser name) as [user|] eqn:Hu.
  - destruct (bcrypt_compare password (passwordHash user)) eqn:Hc.
    + rewrite (login_success _ _ _ user) by done.
      assert (H := evolves_rotateSession req_cookie (id user)
                     (after_compare password (passwordHash user) w)).
      destruct (rotateSession _ _ _) as [tok w']. cbn in *.
      eapply evolves_trans; [|exact H]. by apply evolves_no_draw.
    + rewrite (login_wrong _ _ _ user) by done. by apply evolves_no_draw.
  - rewrite login_unknown by done. apply evolves_refl.
Qed.

Lemma evolves_serve (r : Request) (w : World) : evolves w (serve r w).2.
Proof.
  destruct r as [name password c|c|c]; unfold Auth.serve, bind.
  - assert (H := evolves_login name password c w).
    by destruct (login name password c w).
  - assert (H := evolves_me c w). by destruct (me c w).
  - assert (H := evolves_logout c w). by destruct (Auth.logout c w).
Qed.

Lemma evolves_serve_all (rs : list Request) (w : World) :
  evolves w (serve_all rs w).2.
Proof.
  revert w. induction rs as [|r rs IH]; intros w; [apply evolves_refl|].
  cbn [Auth.serve_all]. unfold bind.
  assert (H := evolves_serve r w). destruct (serve r w) as [[] w'].
  eapply evolves_trans; [exact H | apply IH].
Qed.

(** The store keeps holding issued tokens only. *)
Lemma store_ok_initial : store_ok initial.
Proof. intros k s. cbn. by rewrite lookup_empty. Qed.

Lemma store_ok_evolves (w w' : World) :
  store_ok w → evolves w w' → store_ok w'.
Proof.
  intros Hok [_ Hk] k s Hs. destruct (Hk k) as [[s' Hs']|(n & _ & ->)].
  - by exists s.
  - by apply (Hok k s').
  - apply token_of_draw_is_token.
Qed.

Lemma store_ok_serve_all (rs : list Request) :
  store_ok (serve_all rs initial).2.
Proof.
  eapply store_ok_evolves; [apply store_ok_initial | apply evolves_serve_all].
Qed.

(** A key that is absent stays absent while no draw produces it. *)
Lemma absent_evolves (w w' : World) (old : jsstring) :
  sessions w !! old = None →
  (∀ n, (draws w ≤ n)%nat → token_of_draw entropy n ≠ old) →
  evolves w w' → sessions w' !! old = None.
Proof.
  intros Hnone Hfresh [_ Hk].
  destruct (sessions w' !! old) as [s|] eqn:E; [|done].
  destruct (Hk old) as [[s' Hs']|(n & Hn & Heq)].
  - by exists s.
  - congruence.
  - exfalso. apply (Hfresh n); [lia | done].
Qed.

End Evolution.

(** ** Sessions: expiry, renewal and rotation *)

Section SessionClaims.

Import Auth.
Local Open Scope Z_scope.

Variable clock : nat → Z.
Variable entropy : nat → nat → N.
Variable bcrypt_hashSync : jsstring → N → jsstring.
Variable bcrypt_compare : jsstring → jsstring → bool.

Local Abbreviation createSession := (createSession clock entropy).
Local Abbreviation rotateSession := (rotateSession clock entropy).
Local Abbreviation requireAuth := (requireAuth clock).
Local Abbreviation serve_all :=
  (serve_all clock entropy bcrypt_hashSync bcrypt_compare).

Lemma store_ok_nonempty (w : World) (token : jsstring) (s : Session) :
  store_ok w → sessions w !! token = Some s → token ≠ [].
Proof. intros Hok Hs ->. by apply Hok in Hs. Qed.

(** C5. In a world whose store holds issued tokens only, as every
    world the server reaches does, a stored token that has not expired
    when [requireAuth] reads the clock ([now <= expires]) is let
    through with the user id of its session, and its expiry becomes the
    time read at the renewal plus [TTL], which is 30 minutes;
    [createSession] stores the new token with the time it reads plus
    [TTL]. *)
Theorem sliding_renewal (w : World) (token : jsstring) (s : Session) :
  store_ok w → sessions w !! token = Some s → clock (ticks w) ≤ expires s →
  TTL = 30 * 60 * 1000
  ∧ (∃ w', requireAuth (Some token) w = (Next (Some (userId s)), w')
       ∧ sessions w'
         = <[token := mkSession (userId s) (clock (S (ticks w)) + TTL)]>
             (sessions w)
       ∧ sessions w' !! token
         = Some (mkSession (userId s) (clock (S (ticks w)) + TTL)))
  ∧ (∀ uid w0,
       sessions (createSession uid w0).2 !! (createSession uid w0).1
       = Some (mkSession uid (clock (ticks w0) + TTL))).
Proof.
  intros Hok Hs Hlive. split; [done|]. split.
  - eexists. split; [|split].
    + apply requireAuth_live; [by eapply store_ok_nonempty | done..].
    + done.
    + cbn. by rewrite lookup_insert_eq.
  - intros uid w0. rewrite createSession_eq. cbn.
    by rewrite lookup_insert_eq.
Qed.

(** C4, amended. In a world whose store holds issued tokens only, a
    stored token whose expiry lies before the time [requireAuth] reads
    is deleted from the store at once and answered with 401 and
    [authenticated: false]; a token under which nothing is found gets
    the same status and body, but only the answer to the expired token
    clears the session cookie. *)
Theorem expired_token_is_purged (w : World) (token : jsstring) (s : Session) :
  store_ok w → sessions w !! token = Some s → clock (ticks w) > expires s →
  (∃ w', requireAuth (Some token) w
         = (Responded (unauthenticated (ClearCookie (js "session"))), w')
       ∧ sessions w' = delete token (sessions w)
       ∧ sessions w' !! token = None)
  ∧ (∀ w0 unknown, lookup_slot w0 unknown = None →
       requireAuth (Some unknown) w0
       = (Responded (unauthenticated NoCookie), w0))
  ∧ status (unauthenticated (ClearCookie (js "session"))) = 401%N
  ∧ status (unauthenticated NoCookie) = 401%N
  ∧ body (unauthenticated (ClearCookie (js "session")))
    = body (unauthenticated NoCookie).
Proof.
  intros Hok Hs Hexp. split.
  - eexists. split; [|split].
    + apply (requireAuth_expired clock w token s);
        [by eapply store_ok_nonempty | done..].
    + done.
    + cbn. by rewrite lookup_delete_eq.
  - split; [|done]. intros w0 unknown Hnone.
    apply requireAuth_absent. intros t Ht.
    destruct unknown; [done|]. cbn in Ht. by injection Ht as <-.
Qed.

(** A name inherited from [Object.prototype] is let through by
    [requireAuth] as long as no [expires] has been written on it. *)
Lemma requireAuth_inherited (w : World) (name : jsstring) :
  inherited name = true → sessions w !! name = None →
  builtin_expires w !! name = None →
  builtin_expires w !! js "__proto__" = None →
  (requireAuth (Some name) w).1 = Next None.
Proof.
  intros Hinh Hown Hexp Hproto. unfold Auth.requireAuth.
  destruct name as [|c t]; [done|]. cbn [truthy].
  unfold bind, get. cbn [fst snd].
  unfold lookup_slot. rewrite Hown, Hinh. cbn.
  by rewrite Hexp, Hproto.
Qed.

(** C3, at the input on which the code fails. On a fresh server,
    [requireAuth] lets the cookie [constructor] through, and it still
    does after [rotateSession] was called with that cookie as the old
    token: [delete] removes own properties only. *)
Theorem inherited_name_survives_rotation (uid : Z) :
  (requireAuth (Some (js "constructor")) initial).1 = Next None
  ∧ (requireAuth (Some (js "constructor"))
       (rotateSession (Some (js "constructor")) uid initial).2).1
    = Next None.
Proof.
  split; [by apply requireAuth_inherited|].
  apply requireAuth_inherited; [done| |done..].
  rewrite rotateSession_eq, createSession_eq. cbn [snd sessions].
  rewrite lookup_insert_ne.
  - change (after_delete (Some (js "constructor")) initial)
      with (set_sessions (delete (js "constructor")) initial).
    cbn [set_sessions sessions]. apply lookup_delete_eq.
  - intros Heq.
    assert (H := token_of_draw_is_token entropy
                   (draws (after_delete (Some (js "constructor")) initial))).
    rewrite Heq in H. by vm_compute in H.
Qed.

(** What rotation does achieve: a token of the issued shape is refused
    after [rotateSession], whatever requests follow, as long as no
    later draw produces it again. *)
Lemma rotated_token_is_refused (w : World) (old : jsstring) (uid : Z)
    (rs : list Request) :
  is_token old = true →
  (∀ n, (draws w ≤ n)%nat → token_of_draw entropy n ≠ old) →
  (requireAuth (Some old)
     (serve_all rs (rotateSession (Some old) uid w).2).2).1
  = Responded (unauthenticated NoCookie).
Proof.
  intros Htok Hfresh.
  rewrite requireAuth_absent; [done|]. intros t Ht.
  rewrite is_token_truthy in Ht by done. injection Ht as <-.
  apply lookup_slot_None; [done|].
  eapply absent_evolves; [| |apply evolves_serve_all].
  - rewrite rotateSession_eq, createSession_eq. cbn [snd sessions].
    rewrite draws_after_delete, lookup_insert_ne by by apply Hfresh.
    unfold after_delete. rewrite is_token_truthy, lookup_slot_token by done.
    destruct (sessions w !! old) eqn:E; [|done].
    cbn [fmap option_fmap option_map set_sessions sessions].
    apply lookup_delete_eq.
  - intros n Hn. apply Hfresh.
    assert (H := evolves_rotateSession clock entropy (Some old) uid w).
    destruct H as [H _]. eapply Nat.le_trans; [exact H | exact Hn].
Qed.

End SessionClaims.

(** ** Login *)

Section LoginClaims.

Import Auth.
Local Open Scope Z_scope.

Variable clock : nat → Z.
Variable entropy : nat → nat → N.
Variable bcrypt_hashSync : jsstring → N → jsstring.
Variable bcrypt_compare : jsstring → jsstring → bool.

Local Abbreviation login :=
  (login clock entropy bcrypt_hashSync bcrypt_compare).
Local Abbreviation findUser := (findUser bcrypt_hashSync).
Local Abbreviation login_body :=
  (login_body clock entropy bcrypt_hashSync bcrypt_compare).
Local Abbreviation findUser_value := (findUser_value bcrypt_hashSync).
Local Abbreviation compare_value := (compare_value bcrypt_compare).

(** C2, amended. A login whose username matches no stored user is
    answered with the generic 401 and leaves the world as it was: it
    returns before any hash comparison, and nothing is thrown.  A
    stored user with a password that does not match gets the same
    answer after exactly one call of [bcrypt.compare]. *)
Theorem unknown_user_returns_before_comparison
    (name password : jsstring) (req_cookie : option jsstring) (w : World) :
  findUser name = None →
  login name password req_cookie w = (INVALID, w)
  ∧ compare_log (login name password req_cookie w).2 = compare_log w
  ∧ (∀ name' password' user,
       findUser name' = Some user →
       bcrypt_compare password' (passwordHash user) = false →
       (login name' password' req_cookie w).1 = INVALID
       ∧ compare_log (login name' password' req_cookie w).2
         = compare_log w ++ [(password', passwordHash user)]).
Proof.
  intros Hnone.
  rewrite (login_unknown clock entropy bcrypt_hashSync bcrypt_compare)
    by done.
  split; [done|]. split; [done|].
  intros name' password' user Hu Hcmp.
  by rewrite (login_wrong clock entropy bcrypt_hashSync bcrypt_compare
                name' password' req_cookie user).
Qed.

(** On a body whose two fields are strings, a login that fails,
    because the username is unknown or because the password does not
    match the stored hash, is answered with one and the same response:
    401, [success: false] and the message
    [Invalid username or password]; no session is created. *)
Lemma string_login_failure_is_generic
    (name password : jsstring) (req_cookie : option jsstring) (w : World) :
  findUser name = None
  ∨ (∃ user, findUser name = Some user
             ∧ bcrypt_compare password (passwordHash user) = false) →
  (login name password req_cookie w).1
  = mkResponse 401
      (Success false (Some (js "Invalid username or password"))) NoCookie
  ∧ sessions (login name password req_cookie w).2 = sessions w.
Proof.
  intros [Hnone|(user & Hu & Hcmp)].
  - by rewrite (login_unknown clock entropy bcrypt_hashSync bcrypt_compare).
  - by rewrite (login_wrong clock entropy bcrypt_hashSync bcrypt_compare
                  name password req_cookie user).
Qed.

(** The handler on a body of two strings is [login]: it always
    answers. *)
Lemma login_body_strings
    (name password : jsstring) (req_cookie : option jsstring) (w : World) :
  login_body (IsString name) (IsString password) req_cookie w
  = (Ok (login name password req_cookie w).1,
     (login name password req_cookie w).2).
Proof.
  unfold Auth.login_body, Auth.login, Auth.findUser_value, Auth.compare_value.
  destruct (findUser name) as [user|]; [|done].
  unfold bind, compare, ret.
  destruct (bcrypt_compare password (passwordHash user)); cbn [negb]; [|done].
  by destruct (rotateSession _ _ _ _ _).
Qed.

(** Every response that a login writes and that is not the 200 is the
    generic one, and then the store is as it was. *)
Lemma answered_failure_is_generic
    (name password : Value) (req_cookie : option jsstring) (w : World)
    (r : Response) :
  (login_body name password req_cookie w).1 = Ok r → status r ≠ 200%N →
  r = INVALID ∧ sessions (login_body name password req_cookie w).2 = sessions w.
Proof.
  unfold Auth.login_body.
  destruct (findUser_value name) as [user|]; [|by intros [= <-]].
  destruct password as [|password|]; cbn [Auth.compare_value]; unfold bind, ret;
    [done| |done].
  unfold compare.
  destruct (bcrypt_compare password (passwordHash user)); cbn [negb].
  - destruct (rotateSession _ _ _ _ _). by intros [= <-].
  - by intros [= <-].
Qed.

(** C8, where the code departs from it.  When the body carries no
    password, or one that is not a string, the login fails in two
    ways that can be told apart: an unknown username is answered with
    the generic 401, while for a stored user [bcrypt.compare] rejects,
    the handler throws and writes no response at all.  So the answers
    for [student] and for an unknown name differ, and what the client
    sees shows whether the username exists.  The world is left as it
    was in both cases. *)
Theorem login_without_password_reveals_username
    (name password : Value) (req_cookie : option jsstring) (w : World) :
  (∀ s, password ≠ IsString s) →
  (findUser_value name = None →
   login_body name password req_cookie w = (Ok INVALID, w))
  ∧ (∀ user, findUser_value name = Some user →
       ∃ msg, login_body name password req_cookie w = (Throw msg, w))
  ∧ (login_body (IsString (js "student")) password req_cookie w).1
    ≠ (login_body (IsString (js "nobody")) password req_cookie w).1.
Proof.
  intros Hpw.
  assert (Hthrow : ∀ user, ∃ msg,
             compare_value password (passwordHash user) w = (Throw msg, w)).
  { intros user. destruct password as [|s|].
    - by eexists.
    - by destruct (Hpw s).
    - by eexists. }
  split; [|split].
  - unfold Auth.login_body. by intros ->.
  - intros user Hu. unfold Auth.login_body. rewrite Hu. unfold bind.
    destruct (Hthrow user) as [msg ->]. by exists msg.
  - unfold Auth.login_body. cbn [Auth.findUser_value].
    change (findUser (js "nobody")) with (@None User).
    change (findUser (js "student"))
      with (Some (mkUser 1 (js "student")
                    (bcrypt_hashSync (js "password123") 12))).
    unfold bind. destruct (Hthrow (mkUser 1 (js "student")
                                     (bcrypt_hashSync (js "password123") 12)))
      as [msg ->].
    done.
Qed.

(** Rotation is what a successful login does with the cookie it was
    sent. *)
Lemma login_rotates
    (name password : jsstring) (req_cookie : option jsstring)
    (user : User) (w : World) :
  findUser name = Some user →
  bcrypt_compare password (passwordHash user) = true →
  (login name password req_cookie w).2
  = (rotateSession clock entropy req_cookie (id user)
       (after_compare password (passwordHash user) w)).2.
Proof.
  intros Hu Hcmp.
  rewrite (login_success clock entropy bcrypt_hashSync bcrypt_compare
             name password req_cookie user) by done.
  by destruct (rotateSession _ _ _ _ _).
Qed.

End LoginClaims.

(** ** The claims on the sample server *)

Section Samples.

Import Auth.
Local Open Scope Z_scope.

Lemma logged_in_store_ok (clock : nat → Z) :
  store_ok (Sample.logged_in clock).2.
Proof.
  unfold Sample.logged_in.
  exact (store_ok_evolves _ _ _ store_ok_initial
           (evolves_login clock Sample.entropy Sample.bcrypt_hashSync
              Sample.bcrypt_compare (js "student") (js "password123")
              None initial)).
Qed.

Lemma sliding_renewal_witness :
  let w := (Sample.logged_in Sample.steady).2 in
  sessions w !! Sample.issued = Some (mkSession 1 (Sample.steady 0 + TTL))
  ∧ Sample.steady (ticks w) ≤ Sample.steady 0 + TTL
  ∧ ∃ w', requireAuth Sample.steady (Some Sample.issued) w
          = (Next (Some 1), w')
        ∧ sessions w' !! Sample.issued
          = Some (mkSession 1 (Sample.steady 2 + TTL)).
Proof.
  intros w.
  assert (Hs : sessions w !! Sample.issued
               = Some (mkSession 1 (Sample.steady 0 + TTL)))
    by (vm_compute; reflexivity).
  assert (Hlive : Sample.steady (ticks w) ≤ Sample.steady 0 + TTL)
    by (vm_compute; discriminate).
  split; [exact Hs|]. split; [exact Hlive|].
  destruct (sliding_renewal Sample.steady Sample.entropy w Sample.issued _
              (logged_in_store_ok Sample.steady) Hs Hlive)
    as (_ & (w' & Hauth & _ & Hnew) & _).
  exists w'. split; [exact Hauth | exact Hnew].
Defined.

Lemma expired_token_is_purged_witness :
  let w := (Sample.logged_in Sample.hourly).2 in
  sessions w !! Sample.issued = Some (mkSession 1 (Sample.hourly 0 + TTL))
  ∧ Sample.hourly (ticks w) > Sample.hourly 0 + TTL
  ∧ ∃ w', requireAuth Sample.hourly (Some Sample.issued) w
          = (Responded (unauthenticated (ClearCookie (js "session"))), w')
        ∧ sessions w' !! Sample.issued = None.
Proof.
  intros w.
  assert (Hs : sessions w !! Sample.issued
               = Some (mkSession 1 (Sample.hourly 0 + TTL)))
    by (vm_compute; reflexivity).
  assert (Hexp : Sample.hourly (ticks w) > Sample.hourly 0 + TTL)
    by (vm_compute; reflexivity).
  split; [exact Hs|]. split; [exact Hexp|].
  destruct (expired_token_is_purged Sample.hourly w Sample.issued _
              (logged_in_store_ok Sample.hourly) Hs Hexp)
    as ((w' & Hauth & _ & Hgone) & _).
  exists w'. split; [exact Hauth | exact Hgone].
Defined.

(** C4 as stated fails: the answer to an expired token clears the
    cookie, the answer to a token that never existed does not. *)
Lemma expired_answer_differs_from_unknown :
  let w := (Sample.logged_in Sample.hourly).2 in
  sessions w !! Sample.issued = Some (mkSession 1 (Sample.hourly 0 + TTL))
  ∧ Sample.hourly (ticks w) > Sample.hourly 0 + TTL
  ∧ lookup_slot w Sample.never_issued = None
  ∧ (requireAuth Sample.hourly (Some Sample.issued) w).1
    ≠ (requireAuth Sample.hourly (Some Sample.never_issued) w).1.
Proof.
  vm_compute. repeat split; discriminate.
Qed.

Lemma unknown_user_returns_before_comparison_witness :
  findUser Sample.bcrypt_hashSync (js "nobody") = None
  ∧ login Sample.steady Sample.entropy Sample.bcrypt_hashSync
      Sample.bcrypt_compare (js "nobody") (js "guess") None initial
    = (INVALID, initial).
Proof.
  split; [reflexivity|].
  apply (unknown_user_returns_before_comparison Sample.steady Sample.entropy
           Sample.bcrypt_hashSync Sample.bcrypt_compare
           (js "nobody") (js "guess") None initial).
  reflexivity.
Defined.

(** C2 as stated fails: for an unknown user no comparison is made at
    all, while a wrong password for [student] costs one. *)
Lemma unknown_user_has_no_dummy_comparison :
  findUser Sample.bcrypt_hashSync (js "nobody") = None
  ∧ compare_log
      (login Sample.steady Sample.entropy Sample.bcrypt_hashSync
         Sample.bcrypt_compare (js "nobody") (js "guess") None initial).2
    = []
  ∧ length
      (compare_log
         (login Sample.steady Sample.entropy Sample.bcrypt_hashSync
            Sample.bcrypt_compare (js "student") (js "guess") None
            initial).2)
    = 1%nat.
Proof. vm_compute. repeat split. Qed.

Lemma login_without_password_reveals_username_witness :
  login_body Sample.steady Sample.entropy Sample.bcrypt_hashSync
    Sample.bcrypt_compare (IsString (js "nobody")) Nullish None initial
  = (Ok INVALID, initial)
  ∧ ∃ msg,
      login_body Sample.steady Sample.entropy Sample.bcrypt_hashSync
        Sample.bcrypt_compare (IsString (js "student")) Nullish None initial
      = (Throw msg, initial).
Proof.
  destruct (login_without_password_reveals_username Sample.steady
              Sample.entropy Sample.bcrypt_hashSync Sample.bcrypt_compare
              (IsString (js "nobody")) Nullish None initial)
    as (Hnone & _); [discriminate|].
  destruct (login_without_password_reveals_username Sample.steady
              Sample.entropy Sample.bcrypt_hashSync Sample.bcrypt_compare
              (IsString (js "student")) Nullish None initial)
    as (_ & Hsome & _); [discriminate|].
  split.
  - apply Hnone. reflexivity.
  - apply (Hsome (mkUser 1 (js "student")
                    (Sample.bcrypt_hashSync (js "password123") 12))).
    reflexivity.
Defined.

(** The two bodies on the sample server: without a password the
    student gets no response, with a wrong one the generic 401 that an
    unknown name gets either way. *)
Example student_without_password :
  (login_body Sample.steady Sample.entropy Sample.bcrypt_hashSync
     Sample.bcrypt_compare (IsString (js "student")) Nullish None initial).1
  = Throw "data and hash arguments required"
  ∧ (login_body Sample.steady Sample.entropy Sample.bcrypt_hashSync
       Sample.bcrypt_compare (IsString (js "student"))
       (IsString (js "guess")) None initial).1
    = Ok INVALID
  ∧ (login_body Sample.steady Sample.entropy Sample.bcrypt_hashSync
       Sample.bcrypt_compare (IsString (js "nobody")) Nullish None initial).1
    = Ok INVALID.
Proof. vm_compute. repeat split. Qed.

(** The cookie [constructor] on the sample server: it is let through
    before the student logs in with it and after, and [/api/me] then
    throws for want of a user. *)
Example constructor_cookie_after_login :
  let w := (login Sample.steady Sample.entropy Sample.bcrypt_hashSync
              Sample.bcrypt_compare (js "student") (js "password123")
              (Some (js "constructor")) initial).2 in
  (requireAuth Sample.steady (Some (js "constructor")) w).1 = Next None
  ∧ (me Sample.steady Sample.bcrypt_hashSync (Some (js "constructor")) w).1
    = Throw "TypeError: Cannot read properties of undefined".
Proof. vm_compute. split; reflexivity. Qed.

End Samples.

Section PathSamples.

Import PathGuard.

(** C10 as stated fails: [notes/..] resolves to [BASE_DIR] too, but
    the filter throws on it and the answer is 400, not 403. *)
Lemma resolves_to_base_but_filtered :
  resolveSafe Sample.cwd (BASE_DIR Sample.cwd Sample.dirname) (js "notes/..")
  = BASE_DIR Sample.cwd Sample.dirname
  ∧ sanitizeFilename (js "notes/..") = Throw "Path traversal attempt"
  ∧ read_route Sample.cwd Sample.dirname Sample.fs (Str (js "notes/.."))
    = (ValidationFailed ["Path traversal attempt"%string], []).
Proof. vm_compute. repeat split. Qed.

(** The two files of [/setup-sample] are read back as written. *)
Example read_hello :
  read_route Sample.cwd Sample.dirname Sample.fs (Str (js "hello.txt"))
  = (FileContent (js "/srv/app/files/hello.txt") Sample.hello,
     [ExistsSync (js "/srv/app/files/hello.txt");
      ReadFileSync (js "/srv/app/files/hello.txt")]).
Proof. vm_compute. reflexivity. Qed.

(** Surrounding white space is trimmed away before the filter runs. *)
Example read_padded :
  read_route Sample.cwd Sample.dirname Sample.fs (Str (js " hello.txt "))
  = read_route Sample.cwd Sample.dirname Sample.fs (Str (js "hello.txt")).
Proof. vm_compute. reflexivity. Qed.

End PathSamples.

(** ** More on the guarded route: what passes, and where it leads *)

Section PathMore.

Import PathGuard.

Lemma join_split (v : jsstring) : join_sep (split_sep v) = v.
Proof.
  induction v as [|c v IH]; [done|]. cbn [split_sep].
  destruct (split_sep_cons v) as (seg & segs & Hv). rewrite Hv in *.
  destruct (c =? slash) eqn:Hc.
  - apply N.eqb_eq in Hc as ->. change (join_sep ([] :: seg :: segs))
      with ([] ++ slash :: join_sep (seg :: segs)). by rewrite IH.
  - destruct segs as [|seg' segs]; cbn in *; by rewrite <- IH.
Qed.

Lemma join_sep_cons (seg : jsstring) (segs : list jsstring) :
  segs ≠ [] → join_sep (seg :: segs) = seg ++ slash :: join_sep segs.
Proof. by destruct segs. Qed.

Lemma join_sep_app (a b : list jsstring) :
  a ≠ [] → b ≠ [] →
  join_sep (a ++ b) = join_sep a ++ slash :: join_sep b.
Proof.
  intros Ha Hb. induction a as [|seg a IH]; [done|].
  destruct a as [|seg' a].
  - cbn [app]. by rewrite join_sep_cons.
  - change (join_sep ((seg :: seg' :: a) ++ b))
      with (seg ++ slash :: join_sep ((seg' :: a) ++ b)).
    rewrite IH by done.
    change (join_sep (seg :: seg' :: a))
      with (seg ++ slash :: join_sep (seg' :: a)).
    by rewrite <- app_assoc.
Qed.

Lemma join_sep_nonempty (segs : list jsstring) :
  segs ≠ [] → Forall proper segs → join_sep segs ≠ [].
Proof.
  intros Hne Hall Hnil. destruct (join_last segs Hne Hall) as (c & Hc & _).
  by rewrite Hnil in Hc.
Qed.

(** A segment of a path is a substring of it. *)
Lemma join_sep_infix (segs : list jsstring) (seg : jsstring) :
  In seg segs → ∃ a b, join_sep segs = a ++ seg ++ b.
Proof.
  induction segs as [|seg0 segs IH]; [done|].
  destruct segs as [|seg1 segs].
  - intros [<-|[]]. exists [], []. by rewrite app_nil_r.
  - rewrite join_sep_cons by done. intros [<-|Hin].
    + by exists [], (slash :: join_sep (seg1 :: segs)).
    + destruct (IH Hin) as (a & b & ->).
      exists (seg0 ++ slash :: a), b. by rewrite <- app_assoc.
Qed.

Lemma split_sep_infix (v seg : jsstring) :
  In seg (split_sep v) → ∃ a b, v = a ++ seg ++ b.
Proof.
  intros Hin. destruct (join_sep_infix _ _ Hin) as (a & b & H).
  rewrite join_split in H. eauto.
Qed.

(** The filter leaves no [..] segment. *)
Lemma filtered_no_dotdot (v : jsstring) :
  includes v (js "..") = false → Forall (λ seg, seg ≠ dotdot) (split_sep v).
Proof.
  intros Hinc. apply Forall_forall. intros seg Hin%list_elem_of_In ->.
  apply split_sep_infix in Hin as (a & b & ->).
  change (a ++ dotdot ++ b) with (a ++ js ".." ++ b) in Hinc.
  assert (H : includes (a ++ js ".." ++ b) (js "..") = true)
    by (apply includes_infix; eauto).
  congruence.
Qed.

(** Without [..] segments normalization only keeps or drops. *)
Lemma fold_norm_keep (segs stack : list jsstring) :
  Forall (λ seg, slash ∉ seg) segs → Forall (λ seg, seg ≠ dotdot) segs →
  ∃ kept, Forall plain kept
    ∧ fold_left (norm_step false) segs stack = rev kept ++ stack
    ∧ (kept = [] ↔ Forall (λ seg, seg = [] ∨ seg = [dot]) segs)
    ∧ (Forall plain segs → kept = segs).
Proof.
  revert stack. induction segs as [|seg segs IH]; intros stack Hs Hd.
  - exists []. by repeat split.
  - inversion Hs as [|? ? Hseg Hs']; inversion Hd as [|? ? Hdd Hd']; subst.
    cbn [fold_left].
    destruct (decide (seg = [] ∨ seg = [dot])) as [Hskip|Hkeep].
    + assert (Hstep : norm_step false stack seg = stack)
        by by destruct Hskip as [->| ->].
      rewrite Hstep. destruct (IH stack Hs' Hd') as (kept & Hk & Hf & Hnil & Hall).
      exists kept. split; [done|]. split; [done|]. split.
      * rewrite Hnil. split; [by constructor|]. by inversion 1.
      * intros Hp. inversion Hp as [|? ? [[Hne _] [Hnd _]] _]; subst.
        by destruct Hskip.
    + assert (Hp : plain seg).
      { split; [split|]; [|done|split]; [| |done]; intros ->; apply Hkeep; auto. }
      rewrite norm_step_push by done.
      destruct (IH (seg :: stack) Hs' Hd') as (kept & Hk & Hf & Hnil & Hall).
      exists (seg :: kept). split; [by constructor|]. split.
      * rewrite Hf. cbn [rev]. by rewrite <- app_assoc.
      * split.
        -- split; [done|]. inversion 1; subst. by destruct Hkeep.
        -- intros Hp'. inversion Hp'; subst. by rewrite Hall.
Qed.

Lemma safe_char_not_space (c : N) : safe_char c = true → is_space c = false.
Proof.
  unfold safe_char, is_space, dot, slash. intros H.
  repeat (apply orb_true_iff in H as [H|H]);
    try (apply andb_true_iff in H as [H1 H2];
         apply N.leb_le in H1; apply N.leb_le in H2);
    try apply N.eqb_eq in H;
    repeat (apply orb_false_iff; split);
    try (apply andb_false_iff;
         destruct (N.leb_spec 9 c); [right|by left]; apply N.leb_gt; lia);
    try (apply andb_false_iff;
         destruct (N.leb_spec 8192 c); [right|by left]; apply N.leb_gt; lia);
    try (apply N.eqb_neq; lia).
Qed.

(** An accepted name has no white space to trim. *)
Lemma trim_accepted (v : jsstring) : SAFE_FILENAME_test v = true → trim v = v.
Proof.
  intros [Hne Hall]%SAFE_FILENAME_test_true.
  destruct v as [|c v]; [done|].
  assert (Hc : is_space c = false)
    by (apply safe_char_not_space, Hall; by left).
  destruct (last (c :: v)) as [l|] eqn:Hl; [|by apply last_None in Hl].
  apply last_Some in Hl as [pre Hpre].
  assert (Hlsp : is_space l = false).
  { apply safe_char_not_space, Hall. rewrite Hpre.
    apply in_or_app. right. by left. }
  unfold trim. cbn [ltrim]. rewrite Hc, Hpre.
  rewrite rtrim_keep by done. done.
Qed.

Lemma run_chain_Str (s v : jsstring) :
  run_chain (Str s) = Valid v ↔ v = trim s ∧ sanitizeFilename v = Ok v.
Proof.
  split.
  - intros H. apply run_chain_Valid in H as (s' & [= <-] & -> & Hok). done.
  - intros [-> Hok]. cbn [run_chain]. unfold custom_errors. rewrite Hok.
    apply sanitizeFilename_Ok in Hok as (_ & Hsafe & _).
    apply SAFE_FILENAME_test_true in Hsafe as [Hne _].
    by destruct (trim s).
Qed.

Lemma ltrim_blank (s : jsstring) :
  Forall (λ c, is_space c = true) s → ltrim s = [].
Proof. induction 1 as [|c s Hc _ IH]; [done|]. cbn. by rewrite Hc. Qed.

End PathMore.

Section GuardedRoute.

Import PathGuard.

Variable cwd : jsstring.
Variable dirname : jsstring.
Variable fs : jsstring → option Node.
Hypothesis dirname_absolute : startsWith dirname sep = true.

Local Abbreviation base := (BASE_DIR cwd dirname).

(** How an accepted filename is resolved: the segments of [BASE_DIR]
    followed by those of the filename that are neither empty nor [.]. *)
Lemma accepted_resolution (v : jsstring) :
  sanitizeFilename v = Ok v →
  ∃ kept, Forall plain kept
    ∧ (kept = [] ↔ Forall (λ seg, seg = [] ∨ seg = [dot]) (split_sep v))
    ∧ (Forall plain (split_sep v) → kept = split_sep v)
    ∧ resolveSafe cwd base v
      = match kept with
        | [] => base
        | _ => base ++ slash :: join_sep kept
        end.
Proof.
  intros Hok.
  apply sanitizeFilename_Ok in Hok as (_ & Hsafe & Hdd & Habs).
  assert (Hres : resolveSafe cwd base v = path_resolve cwd [base; v]).
  { unfold resolveSafe, decodeURIComponent.
    by rewrite decode_without_percent by by apply safe_without_percent. }
  apply SAFE_FILENAME_test_true in Hsafe as [Hne _].
  destruct v as [|c t]; [done|].
  assert (Hc : c ≠ slash).
  { intros ->. assert (H : startsWith (slash :: t) (js "/") = true)
      by (apply startsWith_prefix; by exists t).
    congruence. }
  destruct (path_resolve_relative cwd dirname dirname_absolute (c :: t) c t
              eq_refl Hc) as (segs & Hsegs & Hbase & Hpath).
  destruct (fold_norm_keep (split_sep (c :: t)) (rev (segs ++ [js "files"])))
    as (kept & Hkept & Hfold & Hnil & Hall).
  { apply split_sep_no_slash. }
  { by apply filtered_no_dotdot. }
  exists kept. split; [done|]. split; [done|]. split; [done|].
  rewrite Hres, Hpath, Hfold, rev_app_distr, !rev_involutive.
  destruct kept as [|seg kept]; [by rewrite app_nil_r|].
  rewrite Hbase, join_sep_app; [done| |done]. by destruct segs.
Qed.

(** X1. A filename that the chain lets through resolves to [BASE_DIR]
    itself or to a path strictly below [BASE_DIR + path.sep]; the
    route answers it with 403 exactly when all its segments are empty
    or [.], so after the filter the containment check only ever stops
    the base directory. *)
Theorem accepted_filename_stays_inside (field : Field) (filename : jsstring) :
  run_chain field = Valid filename →
  (resolveSafe cwd base filename = base
   ∨ strict_prefix (base ++ sep) (resolveSafe cwd base filename))
  ∧ ((read_route cwd dirname fs field).1 = TraversalDetected
     ↔ Forall (λ seg, seg = [] ∨ seg = [dot]) (split_sep filename)).
Proof.
  intros Hchain.
  destruct (run_chain_Valid field filename Hchain) as (s & _ & _ & Hok).
  destruct (accepted_resolution filename Hok) as (kept & Hkept & Hnil & _ & Hres).
  rewrite (read_route_Valid cwd dirname fs field filename Hchain). cbn zeta.
  rewrite Hres, <- Hnil. destruct kept as [|seg kept].
  - split; [by left|].
    rewrite startsWith_longer by (rewrite length_app; cbn; lia). done.
  - assert (Hne : join_sep (seg :: kept) ≠ [])
      by by apply join_sep_nonempty; [|apply plain_proper].
    split.
    + right. exists (join_sep (seg :: kept)). split; [done|].
      unfold sep. by rewrite <- app_assoc.
    + assert (Hpre : startsWith (base ++ slash :: join_sep (seg :: kept))
                       (base ++ sep) = true).
      { apply startsWith_prefix. exists (join_sep (seg :: kept)).
        unfold sep. by rewrite <- app_assoc. }
      rewrite Hpre. cbn [negb].
      split; [|done].
      by destruct (fs (base ++ slash :: join_sep (seg :: kept))) as [[?|]|].
Qed.

(** Where a plain name leads. *)
Lemma plain_name_resolves (v : jsstring) :
  sanitizeFilename v = Ok v → Forall plain (split_sep v) →
  resolveSafe cwd base v = base ++ slash :: v
  ∧ path_resolve cwd [base; v] = base ++ slash :: v
  ∧ run_chain (Str v) = Valid v.
Proof.
  intros Hok Hplain.
  destruct (accepted_resolution v Hok) as (kept & _ & _ & Hall & Hres).
  rewrite (Hall Hplain) in Hres.
  destruct (split_sep_cons v) as (seg & segs & Hv). rewrite Hv in Hres.
  rewrite <- Hv, join_split in Hres. split; [done|].
  apply sanitizeFilename_Ok in Hok as Hparts.
  destruct Hparts as (_ & Hsafe & _). split.
  - rewrite <- Hres. unfold resolveSafe, decodeURIComponent.
    by rewrite decode_without_percent by by apply safe_without_percent.
  - apply run_chain_Str. split; [|done]. symmetry. by apply trim_accepted.
Qed.

Lemma startsWith_below_base (v : jsstring) :
  startsWith (base ++ slash :: v) (base ++ sep) = true.
Proof.
  apply startsWith_prefix. exists v. unfold sep. by rewrite <- app_assoc.
Qed.

(** X2. A name that the filter accepts and that has no empty and no
    [.] segment is looked up at [BASE_DIR/name]: the route answers
    with the content of the file there, with 404 when nothing is
    there, and throws when a directory is there. *)
Theorem plain_filename_is_served (v : jsstring) :
  sanitizeFilename v = Ok v → Forall plain (split_sep v) →
  resolveSafe cwd base v = base ++ slash :: v
  ∧ read_route cwd dirname fs (Str v)
    = match fs (base ++ slash :: v) with
      | None => (FileNotFound, [ExistsSync (base ++ slash :: v)])
      | Some (File content) =>
          (FileContent (base ++ slash :: v) content,
           [ExistsSync (base ++ slash :: v);
            ReadFileSync (base ++ slash :: v)])
      | Some Dir =>
          (Uncaught "EISDIR: illegal operation on a directory, read",
           [ExistsSync (base ++ slash :: v);
            ReadFileSync (base ++ slash :: v)])
      end.
Proof.
  intros Hok Hplain.
  destruct (plain_name_resolves v Hok Hplain) as (Hres & _ & Hchain).
  split; [done|].
  rewrite (read_route_Valid cwd dirname fs (Str v) v Hchain). cbn zeta.
  by rewrite Hres, startsWith_below_base.
Qed.

End GuardedRoute.

Section ChainEdges.

Import PathGuard.

(** X3. The chain lets a string field through exactly when the filter
    accepts its trimmed value, and hands on that trimmed value; a
    value that the filter accepts is handed on as it was sent. *)
Theorem chain_hands_on_trimmed_value (s v : jsstring) :
  (run_chain (Str s) = Valid v ↔ v = trim s ∧ sanitizeFilename v = Ok v)
  ∧ (sanitizeFilename s = Ok s → run_chain (Str s) = Valid s).
Proof.
  split; [apply run_chain_Str|]. intros Hok. apply run_chain_Str.
  split; [|done]. symmetry. apply trim_accepted.
  by apply sanitizeFilename_Ok in Hok as (_ & ? & _).
Qed.

(** X4. A field that is empty or all white space is answered with 400
    and two messages, the one of [notEmpty] and the one of the filter,
    since only [exists] is followed by [bail]; a missing field gets the
    message of [exists] alone.  No call into [fs] is made. *)
Theorem blank_filename_reports_twice
    (cwd dirname : jsstring) (fs : jsstring → option Node) (s : jsstring) :
  Forall (λ c, is_space c = true) s →
  read_route cwd dirname fs (Str s)
  = (ValidationFailed ["filename must not be empty"%string;
                       "Illegal characters in filename"%string], [])
  ∧ read_route cwd dirname fs Absent
    = (ValidationFailed ["filename required"%string], []).
Proof.
  intros Hblank. split; [|done]. apply read_route_Invalid.
  cbn [run_chain]. unfold trim. by rewrite ltrim_blank.
Qed.

End ChainEdges.

(** ** The route without validation *)

Section UnguardedRoute.

Import PathGuard.

Variable cwd : jsstring.
Variable dirname : jsstring.
Variable fs : jsstring → option Node.
Hypothesis dirname_absolute : startsWith dirname sep = true.

Local Abbreviation base := (BASE_DIR cwd dirname).

Lemma normalize_trailing (allow : bool) (p : jsstring) :
  normalize allow (p ++ [slash]) = normalize allow p.
Proof.
  unfold normalize. rewrite split_sep_app, fold_left_app. cbn [split_sep fold_left].
  by rewrite norm_step_empty.
Qed.

(** [..] segments take away the kept segments one by one and stop at
    the root. *)
Lemma fold_norm_pop (n : nat) (stack : list jsstring) :
  Forall plain stack →
  fold_left (norm_step false) (replicate n dotdot) stack = drop n stack.
Proof.
  revert stack. induction n as [|n IH]; intros stack Hst; [done|].
  cbn [replicate fold_left]. destruct stack as [|top below].
  - change (norm_step false [] dotdot) with (@nil jsstring).
    rewrite IH by done. by rewrite drop_nil.
  - inversion Hst as [|? ? [_ [_ Htop]] Hbelow]; subst.
    assert (Hstep : norm_step false (top :: below) dotdot = below).
    { unfold norm_step. change (str_eqb dotdot [] || str_eqb dotdot [dot])
        with false. change (str_eqb dotdot dotdot) with true.
      apply str_eqb_neq in Htop. by rewrite Htop. }
    rewrite Hstep. by apply IH.
Qed.

Lemma base_cons : ∃ b, base = slash :: b.
Proof. apply absolute_cons, BASE_DIR_absolute, dirname_absolute. Qed.

Lemma path_join_base (v : jsstring) (c : N) (t : jsstring) :
  v = c :: t → path_join [base; v] = path_normalize (base ++ slash :: v).
Proof.
  intros ->. destruct base_cons as [b ->]. done.
Qed.

Lemma path_normalize_absolute (p : jsstring) :
  path_normalize (slash :: p)
  = match normalize false (slash :: p) with
    | [] => [slash]
    | n => slash :: (if match last (slash :: p) with
                        | Some l => l =? slash
                        | None => false
                        end
                     then n ++ [slash] else n)
    end.
Proof.
  unfold path_normalize. rewrite N.eqb_refl. cbn [negb].
  by destruct (normalize false (slash :: p)).
Qed.

(** X5. For a filename that is not empty and does not begin with the
    separator, the path that [/read-no-validate] builds with
    [path.join] is the path that [path.resolve] gives in [resolveSafe],
    with a separator appended when the filename ends in one and the
    path is not the root; when the filename has no [%] that is the
    path [resolveSafe] returns. *)
Theorem join_agrees_with_resolve (v : jsstring) (c : N) (t : jsstring) :
  v = c :: t → c ≠ slash →
  path_join [base; v]
  = (if match last v with Some l => l =? slash | None => false end
        && negb (str_eqb (path_resolve cwd [base; v]) [slash])
     then path_resolve cwd [base; v] ++ sep
     else path_resolve cwd [base; v])
  ∧ (¬ In percent v → resolveSafe cwd base v = path_resolve cwd [base; v]).
Proof.
  intros Hv Hc. split.
  - rewrite (path_join_base v c t Hv).
    destruct (path_resolve_absolute cwd base v) as (rp & -> & Hrp).
    { by apply BASE_DIR_absolute. }
    rewrite (Hrp c t Hv Hc).
    replace (base ++ slash :: v ++ [slash])
      with ((base ++ slash :: v) ++ [slash]) by by rewrite <- app_assoc.
    rewrite normalize_trailing.
    destruct base_cons as [b Hb]. rewrite Hb. cbn [app].
    rewrite path_normalize_absolute.
    assert (Hlast : last (slash :: b ++ slash :: v) = last v).
    { rewrite app_comm_cons, last_app_cons. subst v.
      by rewrite last_cons_cons. }
    rewrite Hlast.
    destruct (normalize false (slash :: b ++ slash :: v)) as [|x n].
    + by rewrite andb_false_r.
    + destruct (match last v with Some l => l =? slash | None => false end);
        done.
  - intros Hno. unfold resolveSafe, decodeURIComponent.
    by rewrite decode_without_percent.
Qed.

(** A path made of segments that do not begin with the segments of
    [BASE_DIR] is neither [BASE_DIR] nor below it: it fails the test
    that [/read] applies. *)
Lemma outside_base (target : list jsstring) :
  target ≠ [] → Forall plain target →
  (∀ rest, target ≠ tail (split_sep base) ++ rest) →
  startsWith (slash :: join_sep target) (base ++ sep) = false
  ∧ slash :: join_sep target ≠ base.
Proof.
  intros Hne Hplain Hout.
  destruct (BASE_DIR_segments cwd dirname dirname_absolute)
    as (segs & Hsegs & Hbase).
  assert (HB : Forall plain (segs ++ [js "files"])).
  { apply Forall_app. split; [done|]. repeat constructor; apply plain_files. }
  assert (HBne : segs ++ [js "files"] ≠ []) by by destruct segs.
  assert (Hsplit : tail (split_sep base) = segs ++ [js "files"]).
  { rewrite Hbase, split_sep_slash. cbn [tail].
    apply split_join; [done | by apply plain_no_slash]. }
  rewrite Hsplit in Hout. clear Hsplit.
  assert (Htarget : split_sep (join_sep target) = target)
    by (apply split_join; [done | by apply plain_no_slash]).
  split.
  - destruct (startsWith (slash :: join_sep target) (base ++ sep)) eqn:E;
      [|done].
    exfalso. apply startsWith_prefix in E as [k Hk].
    rewrite Hbase in Hk. unfold sep in Hk. cbn [app] in Hk.
    injection Hk as Hk. rewrite <- app_assoc in Hk. cbn [app] in Hk.
    apply (f_equal split_sep) in Hk.
    rewrite Htarget, split_sep_app in Hk.
    rewrite split_join in Hk; [| done | by apply plain_no_slash].
    exact (Hout _ Hk).
  - intros Heq. rewrite Hbase in Heq. injection Heq as Heq.
    apply (f_equal split_sep) in Heq.
    rewrite Htarget in Heq.
    rewrite split_join in Heq; [| done | by apply plain_no_slash].
    apply (Hout []). by rewrite app_nil_r.
Qed.

(** X6. With enough [../] in front (at least as many as [BASE_DIR]
    has segments) a filename leads [/read-no-validate] to any absolute
    path: [fs] is asked about [/target] and a file there is returned,
    while [/read] answers the same filename with 400 and asks [fs]
    nothing.  When the target does not begin with the segments of
    [BASE_DIR], the path that [fs] is asked about lies outside
    [BASE_DIR]: it is not [BASE_DIR] and does not start with
    [BASE_DIR + path.sep]. *)
Theorem unguarded_route_escapes (n : nat) (target : list jsstring) :
  target ≠ [] → Forall plain target →
  (length (split_sep base) ≤ S n)%nat →
  read_no_validate cwd dirname fs
    (Text (join_sep (replicate n dotdot ++ target)))
  = match fs (slash :: join_sep target) with
    | None =>
        (NotFoundAt (slash :: join_sep target),
         [ExistsSync (slash :: join_sep target)])
    | Some (File content) =>
        (Content (slash :: join_sep target) content,
         [ExistsSync (slash :: join_sep target);
          ReadFileSync (slash :: join_sep target)])
    | Some Dir =>
        (Threw "EISDIR: illegal operation on a directory, read",
         [ExistsSync (slash :: join_sep target);
          ReadFileSync (slash :: join_sep target)])
    end
  ∧ (∃ errors,
        read_route cwd dirname fs
          (Str (join_sep (replicate n dotdot ++ target)))
        = (ValidationFailed errors, []))
  ∧ ((∀ rest, target ≠ tail (split_sep base) ++ rest) →
     startsWith (slash :: join_sep target) (base ++ sep) = false
     ∧ slash :: join_sep target ≠ base).
Proof.
  intros Hne Hplain Hdepth.
  destruct (BASE_DIR_segments cwd dirname dirname_absolute)
    as (segs & Hsegs & Hbase).
  assert (HB : Forall plain (segs ++ [js "files"])).
  { apply Forall_app. split; [done|]. repeat constructor; apply plain_files. }
  assert (Hn : (length (segs ++ [js "files"]) ≤ n)%nat).
  { rewrite Hbase, split_sep_slash in Hdepth.
    rewrite split_join in Hdepth;
      [cbn [length] in Hdepth; lia | by destruct segs | by apply plain_no_slash]. }
  assert (Hn1 : ∃ m, n = S m).
  { rewrite length_app in Hn. cbn in Hn. destruct n; [lia | eauto]. }
  destruct Hn1 as [m ->].
  set (ups := replicate (S m) dotdot ++ target).
  assert (Hups : Forall proper ups).
  { apply Forall_app. split; [|by apply plain_proper].
    apply Forall_forall. intros x Hx. apply elem_of_replicate in Hx as [-> _].
    apply proper_dotdot. }
  assert (Hups_ne : ups ≠ []) by done.
  assert (Hups_slash : Forall (λ seg, slash ∉ seg) ups).
  { eapply Forall_impl; [exact Hups|]. by intros seg [_ ?]. }
  destruct (join_last ups Hups_ne Hups) as (l & Hl & Hlne).
  assert (Hfile : join_sep ups ≠ []) by by apply join_sep_nonempty.
  assert (Hjoin : path_join [base; join_sep ups] = slash :: join_sep target).
  { destruct (join_sep ups) as [|c t] eqn:Hj; [done|].
    rewrite (path_join_base (c :: t) c t eq_refl).
    destruct base_cons as [b Hb]. rewrite Hb. cbn [app].
    rewrite path_normalize_absolute.
    assert (Hlast : last (slash :: b ++ slash :: c :: t) = Some l).
    { by rewrite app_comm_cons, last_app_cons, last_cons_cons. }
    rewrite Hlast. apply N.eqb_neq in Hlne. rewrite Hlne.
    assert (Hnorm : normalize false (slash :: b ++ slash :: c :: t)
                    = join_sep target).
    { rewrite app_comm_cons, <- Hb, <- Hj. unfold normalize.
      rewrite split_sep_app, Hbase, split_sep_slash.
      rewrite (split_join (segs ++ [js "files"]));
        [| by destruct segs | by apply plain_no_slash].
      rewrite (split_join ups) by done.
      cbn [app fold_left]. rewrite norm_step_empty.
      rewrite (fold_left_app _ (segs ++ [js "files"])).
      rewrite (fold_norm_push (segs ++ [js "files"])) by done.
      rewrite app_nil_r. unfold ups.
      rewrite (fold_left_app _ (replicate (S m) dotdot)).
      rewrite fold_norm_pop by by apply Forall_rev.
      rewrite drop_ge by (rewrite length_rev; lia).
      rewrite fold_norm_push by done.
      by rewrite app_nil_r, rev_involutive. }
    rewrite Hnorm.
    destruct (join_sep target) eqn:Ht; [|done].
    exfalso. by apply (join_sep_nonempty target Hne (plain_proper _ Hplain)). }
  split; [|split].
  - unfold read_no_validate. rewrite <- Hjoin.
    by destruct (join_sep ups) as [|c t] eqn:Hj.
  - assert (∃ msg, sanitizeFilename (trim (join_sep ups)) = Throw msg)
      as [msg Hmsg].
    { apply sanitizeFilename_rejects. right. left. apply trim_keeps_dotdot.
      apply includes_infix. exists [].
      destruct (join_sep_infix ups dotdot) as (a & b & Hab); [by left|].
      unfold ups in *. cbn [replicate app] in *.
      destruct (replicate m dotdot ++ target) eqn:E.
      - by exists [].
      - rewrite join_sep_cons by done. by eexists. }
    destruct (run_chain_Throw _ msg Hmsg) as (errors & Herr & _).
    exists errors. by apply read_route_Invalid.
  - intros Hout. by apply outside_base.
Qed.



End UnguardedRoute.

Section PathMoreSamples.

Import PathGuard.

Lemma accepted_filename_stays_inside_witness :
  run_chain (Str (js " ./notes//readme.md ")) = Valid (js "./notes//readme.md")
  ∧ strict_prefix (BASE_DIR Sample.cwd Sample.dirname ++ sep)
      (resolveSafe Sample.cwd (BASE_DIR Sample.cwd Sample.dirname)
         (js "./notes//readme.md")).
Proof.
  assert (H : run_chain (Str (js " ./notes//readme.md "))
              = Valid (js "./notes//readme.md")) by (vm_compute; reflexivity).
  split; [exact H|].
  destruct (accepted_filename_stays_inside Sample.cwd Sample.dirname Sample.fs
              eq_refl _ _ H) as [[Hbase|Hin] _]; [|exact Hin].
  vm_compute in Hbase. discriminate.
Defined.

Lemma plain_filename_is_served_witness :
  sanitizeFilename (js "notes/readme.md") = Ok (js "notes/readme.md")
  ∧ read_route Sample.cwd Sample.dirname Sample.fs (Str (js "notes/readme.md"))
    = (FileContent (js "/srv/app/files/notes/readme.md") Sample.readme,
       [ExistsSync (js "/srv/app/files/notes/readme.md");
        ReadFileSync (js "/srv/app/files/notes/readme.md")]).
Proof.
  split; [vm_compute; reflexivity|].
  destruct (plain_filename_is_served Sample.cwd Sample.dirname Sample.fs eq_refl
              (js "notes/readme.md")) as [_ H].
  - vm_compute. reflexivity.
  - repeat constructor; vm_compute; try discriminate;
      intros H; repeat (apply elem_of_cons in H as [H|H]; [discriminate|]);
      by apply elem_of_nil in H.
  - rewrite H. vm_compute. reflexivity.
Defined.

Lemma blank_filename_reports_twice_witness :
  Forall (λ c, is_space c = true) (js "   ")
  ∧ read_route Sample.cwd Sample.dirname Sample.fs (Str (js "   "))
    = (ValidationFailed ["filename must not be empty"%string;
                         "Illegal characters in filename"%string], []).
Proof.
  assert (H : Forall (λ c, is_space c = true) (js "   "))
    by (repeat constructor).
  split; [exact H|].
  apply (blank_filename_reports_twice Sample.cwd Sample.dirname Sample.fs _ H).
Defined.

Lemma join_agrees_with_resolve_witness :
  path_join [BASE_DIR Sample.cwd Sample.dirname; js "notes/"]
  = js "/srv/app/files/notes/"
  ∧ path_resolve Sample.cwd [BASE_DIR Sample.cwd Sample.dirname; js "notes/"]
    = js "/srv/app/files/notes".
Proof.
  destruct (join_agrees_with_resolve Sample.cwd Sample.dirname eq_refl
              (js "notes/") 110%N (js "otes/") eq_refl) as [H _]; [done|].
  split; [rewrite H|]; vm_compute; reflexivity.
Defined.

Lemma unguarded_route_escapes_witness :
  read_no_validate Sample.cwd Sample.dirname
    (λ p, if str_eqb p (js "/etc/passwd") then Some (File (js "root:x:0:0"))
          else Sample.fs p)
    (Text (js "../../../etc/passwd"))
  = (Content (js "/etc/passwd") (js "root:x:0:0"),
     [ExistsSync (js "/etc/passwd"); ReadFileSync (js "/etc/passwd")])
  ∧ startsWith (js "/etc/passwd") (js "/srv/app/files/") = false
  ∧ js "/etc/passwd" ≠ js "/srv/app/files".
Proof.
  destruct (unguarded_route_escapes Sample.cwd Sample.dirname
              (λ p, if str_eqb p (js "/etc/passwd")
                    then Some (File (js "root:x:0:0")) else Sample.fs p)
              eq_refl 3 [js "etc"; js "passwd"]) as (H & _ & Hout).
  - done.
  - repeat constructor; vm_compute; try discriminate;
      intros H; repeat (apply elem_of_cons in H as [H|H]; [discriminate|]);
      by apply elem_of_nil in H.
  - vm_compute. lia.
  - split; [exact H|]. apply Hout. intros rest. vm_compute. discriminate.
Defined.


End PathMoreSamples.

(** ** The helper route [/setup-sample] *)

Section SetupSample.

Import PathGuard.

Variable cwd : jsstring.
Variable dirname : jsstring.
Hypothesis dirname_absolute : startsWith dirname sep = true.

Local Abbreviation base := (BASE_DIR cwd dirname).
Local Abbreviation hello_path := (base ++ slash :: js "hello.txt").
Local Abbreviation notes_path := (base ++ slash :: js "notes").
Local Abbreviation readme_path := (base ++ slash :: js "notes/readme.md").

Lemma plain_segment (seg : jsstring) :
  SAFE_FILENAME_test seg = true → slash ∉ seg → seg ≠ [dot] → seg ≠ dotdot →
  plain seg.
Proof.
  intros [Hne _]%SAFE_FILENAME_test_true Hs Hd Hdd. by repeat split.
Qed.

Lemma not_in_segment (seg : jsstring) :
  forallb (λ c, negb (c =? slash)) seg = true → slash ∉ seg.
Proof.
  intros H Hin%list_elem_of_In. rewrite forallb_forall in H.
  apply H in Hin. by rewrite N.eqb_refl in Hin.
Qed.

Lemma resolve_hello :
  path_resolve cwd [base; js "hello.txt"] = hello_path.
Proof.
  apply (plain_name_resolves cwd dirname dirname_absolute (js "hello.txt"));
    [done|].
  repeat constructor; try done; by apply not_in_segment.
Qed.

Lemma resolve_readme :
  path_resolve cwd [base; js "notes/readme.md"] = readme_path.
Proof.
  apply (plain_name_resolves cwd dirname dirname_absolute
           (js "notes/readme.md")); [done|].
  repeat constructor; try done; by apply not_in_segment.
Qed.

(** The directory of a file directly below a directory that is not
    the root. *)
Lemma dirname_loop_segment (l r : jsstring) (m : bool) :
  l ≠ [] → slash ∉ l → dirname_loop (l ++ slash :: r) m = Some r.
Proof.
  revert m. induction l as [|x l IH]; intros m Hne Hl; [done|].
  apply not_elem_of_cons in Hl as [Hx Hl].
  cbn [app dirname_loop].
  assert (E : (x =? slash) = false) by (apply N.eqb_neq; congruence).
  rewrite E. destruct l as [|y l].
  - cbn [app dirname_loop]. by rewrite N.eqb_refl.
  - by apply IH.
Qed.

Lemma path_dirname_child (b seg : jsstring) :
  b ≠ [] → seg ≠ [] → slash ∉ seg →
  path_dirname (slash :: b ++ slash :: seg) = slash :: b.
Proof.
  intros Hb Hseg Hs. unfold path_dirname. rewrite N.eqb_refl.
  rewrite rev_app_distr. cbn [rev]. rewrite <- app_assoc. cbn [app].
  rewrite dirname_loop_segment.
  - rewrite rev_involutive. cbn [andb].
    rewrite bool_decide_eq_false_2; [done|].
    intros E. apply (f_equal (@rev N)) in E. rewrite rev_involutive in E. done.
  - intros E. apply (f_equal (@rev N)) in E. rewrite rev_involutive in E. done.
  - intros Hin. apply Hs. apply list_elem_of_In. apply list_elem_of_In in Hin.
    by apply in_rev in Hin.
Qed.

Lemma base_tail : ∃ b, base = slash :: b ∧ b ≠ [].
Proof.
  destruct (BASE_DIR_segments cwd dirname dirname_absolute)
    as (segs & Hsegs & ->).
  eexists. split; [done|].
  apply join_sep_nonempty; [by destruct segs|].
  apply plain_proper, Forall_app. split; [done|].
  repeat constructor; apply plain_files.
Qed.

Lemma dirname_hello : path_dirname hello_path = base.
Proof.
  destruct base_tail as (b & -> & Hb). cbn [app].
  apply path_dirname_child; [done..|]. by apply not_in_segment.
Qed.

Lemma dirname_readme : path_dirname readme_path = notes_path.
Proof.
  destruct base_tail as (b & -> & Hb).
  change (js "notes/readme.md") with (js "notes" ++ slash :: js "readme.md").
  cbn [app].
  replace (b ++ slash :: js "notes" ++ slash :: js "readme.md")
    with ((b ++ slash :: js "notes") ++ slash :: js "readme.md")
    by (by rewrite <- app_assoc).
  apply path_dirname_child; [by destruct b | done |].
  by apply not_in_segment.
Qed.

Lemma dirname_notes : path_dirname notes_path = base.
Proof.
  destruct base_tail as (b & -> & Hb). cbn [app].
  apply path_dirname_child; [done..|]. by apply not_in_segment.
Qed.

Lemma below_base_not_root (v : jsstring) : base ++ slash :: v ≠ [slash].
Proof. destruct base_tail as (b & -> & Hb). by destruct b. Qed.

Lemma base_not_root : base ≠ [slash].
Proof. destruct base_tail as (b & -> & Hb). by destruct b. Qed.

Lemma disk_fs_lookup (disk : Disk) (p : jsstring) :
  p ≠ [slash] → disk_fs disk p = disk !! p.
Proof. intros Hp. unfold disk_fs. apply str_eqb_neq in Hp. by rewrite Hp. Qed.

(** [mkdirSync] changes nothing that is there. *)
Lemma mkdirp_keeps (chain : list jsstring) (disk disk' : Disk)
    (q : jsstring) (x : Node) :
  mkdirp chain disk = Ok disk' → disk !! q = Some x → disk' !! q = Some x.
Proof.
  revert disk'. induction chain as [|d above IH]; intros disk' Hmk Hq.
  - by injection Hmk as <-.
  - cbn [mkdirp] in Hmk. destruct (disk !! d) as [[c|]|] eqn:Hd.
    + done.
    + by injection Hmk as <-.
    + destruct (mkdirp above disk) as [disk''|msg]; [|done].
      injection Hmk as <-. rewrite lookup_insert_ne; [by apply IH|].
      intros ->. congruence.
Qed.

(** One sample: the file is there afterwards, below a directory, and
    whatever else was on the disk still is. *)
Lemma setup_one_effect (disk disk' : Disk) (name data : jsstring) :
  path_resolve cwd [base; name] ≠ [slash] →
  setup_one cwd dirname disk (name, data) = Ok disk' →
  disk' !! path_resolve cwd [base; name] = Some (File data)
  ∧ (path_dirname (path_resolve cwd [base; name])
       ≠ path_resolve cwd [base; name] →
     disk_fs disk' (path_dirname (path_resolve cwd [base; name])) = Some Dir)
  ∧ (∀ q x, disk !! q = Some x → q ≠ path_resolve cwd [base; name] →
            disk' !! q = Some x).
Proof.
  intros Hroot. unfold setup_one. cbn [fst snd].
  set (p := path_resolve cwd [base; name]) in *.
  set (d := path_dirname p).
  intros Hsetup.
  assert (Hmid : ∃ mid, (∀ q x, disk !! q = Some x → mid !! q = Some x)
                        ∧ writeFileSync p data mid = Ok disk').
  { destruct (disk_fs disk d).
    - by exists disk.
    - unfold mkdirSync_recursive in Hsetup.
      destruct (mkdirp _ disk) as [mid|msg] eqn:Hmk; [|done].
      exists mid. split; [|done]. intros q x.
      by apply (mkdirp_keeps _ _ _ q x Hmk). }
  destruct Hmid as (mid & Hkeep & Hwrite). unfold writeFileSync in Hwrite.
  fold d in Hwrite.
  assert (Hparent : disk_fs mid d = Some Dir ∧ disk' = <[p := File data]> mid).
  { destruct (disk_fs mid p) as [[c|]|]; [| done |];
      destruct (disk_fs mid d) as [[c'|]|]; try done;
      by injection Hwrite as <-. }
  destruct Hparent as [Hd ->]. split; [by rewrite lookup_insert_eq|]. split.
  - intros Hdp. unfold disk_fs in *.
    destruct (str_eqb d [slash]); [done|]. by rewrite lookup_insert_ne.
  - intros q x Hq Hne. rewrite lookup_insert_ne by done. by apply Hkeep.
Qed.

Lemma setup_sample_steps (disk disk' : Disk) :
  setup_sample cwd dirname disk = Ok disk' →
  ∃ mid, setup_one cwd dirname disk (js "hello.txt", Sample.hello) = Ok mid
         ∧ setup_one cwd dirname mid (js "notes/readme.md", Sample.readme)
           = Ok disk'.
Proof.
  unfold setup_sample, samples. cbn [fold_left].
  destruct (setup_one cwd dirname disk (js "hello.txt", Sample.hello))
    as [mid|msg]; [|done].
  intros H. by exists mid.
Qed.

Lemma hello_not_readme : hello_path ≠ readme_path.
Proof. intros H%app_inv_head. discriminate. Qed.

Lemma base_not_hello : base ≠ hello_path.
Proof.
  intros H. apply (f_equal length) in H. rewrite length_app in H.
  cbn in H. lia.
Qed.

Lemma base_not_readme : base ≠ readme_path.
Proof.
  intros H. apply (f_equal length) in H. rewrite length_app in H.
  cbn in H. lia.
Qed.

Lemma notes_not_readme : notes_path ≠ readme_path.
Proof. intros H%app_inv_head. discriminate. Qed.

Lemma notes_not_hello : notes_path ≠ hello_path.
Proof. intros H%app_inv_head. discriminate. Qed.

(** What a successful [/setup-sample] leaves on the disk. *)
Lemma setup_sample_disk (disk disk' : Disk) :
  setup_sample cwd dirname disk = Ok disk' →
  disk' !! hello_path = Some (File Sample.hello)
  ∧ disk' !! readme_path = Some (File Sample.readme)
  ∧ disk' !! base = Some Dir
  ∧ disk' !! notes_path = Some Dir
  ∧ (∀ q x, disk !! q = Some x → q ≠ hello_path → q ≠ readme_path →
            disk' !! q = Some x).
Proof.
  intros (mid & H1 & H2)%setup_sample_steps.
  apply setup_one_effect in H1 as (Hh & Hd1 & Hk1);
    [|rewrite resolve_hello; apply below_base_not_root].
  apply setup_one_effect in H2 as (Hr & Hd2 & Hk2);
    [|rewrite resolve_readme; apply below_base_not_root].
  rewrite resolve_hello in *. rewrite resolve_readme in *.
  rewrite dirname_hello in Hd1. rewrite dirname_readme in Hd2.
  specialize (Hd1 base_not_hello). specialize (Hd2 notes_not_readme).
  rewrite disk_fs_lookup in Hd1 by apply base_not_root.
  rewrite disk_fs_lookup in Hd2 by apply below_base_not_root.
  split; [|split; [|split; [|split]]].
  - apply Hk2; [done | apply hello_not_readme].
  - done.
  - apply Hk2; [done | apply base_not_readme].
  - done.
  - intros q x Hq Hqh Hqr. apply Hk2; [|done]. by apply Hk1.
Qed.

(** X18. When [/setup-sample] has answered, [/read] returns the two
    samples as they were written, [hello.txt] and [notes/readme.md],
    and everything else that was on the disk is still there
    unchanged. *)
Theorem setup_then_read (disk disk' : Disk) :
  setup_sample cwd dirname disk = Ok disk' →
  read_route cwd dirname (disk_fs disk') (Str (js "hello.txt"))
  = (FileContent hello_path (js "Hello from safe file!" ++ [10%N]),
     [ExistsSync hello_path; ReadFileSync hello_path])
  ∧ read_route cwd dirname (disk_fs disk') (Str (js "notes/readme.md"))
    = (FileContent readme_path
         (js "# Readme" ++ [10%N] ++ js "Sample readme file"),
       [ExistsSync readme_path; ReadFileSync readme_path])
  ∧ (∀ q x, disk !! q = Some x → q ≠ hello_path → q ≠ readme_path →
            disk' !! q = Some x).
Proof.
  intros Hsetup.
  destruct (setup_sample_disk disk disk' Hsetup) as (Hh & Hr & _ & _ & Hkeep).
  split; [|split; [|done]].
  - rewrite (read_route_Valid cwd dirname (disk_fs disk')
               (Str (js "hello.txt")) (js "hello.txt") eq_refl).
    cbn zeta. unfold resolveSafe.
    change (decodeURIComponent (js "hello.txt")) with (Ok (js "hello.txt")).
    cbn match. rewrite resolve_hello, startsWith_below_base. cbn [negb].
    assert (Hf : disk_fs disk' hello_path = Some (File Sample.hello))
      by (rewrite disk_fs_lookup; [exact Hh | apply below_base_not_root]).
    by rewrite Hf.
  - rewrite (read_route_Valid cwd dirname (disk_fs disk')
               (Str (js "notes/readme.md")) (js "notes/readme.md") eq_refl).
    cbn zeta. unfold resolveSafe.
    change (decodeURIComponent (js "notes/readme.md"))
      with (Ok (js "notes/readme.md")).
    cbn match. rewrite resolve_readme, startsWith_below_base. cbn [negb].
    assert (Hf : disk_fs disk' readme_path = Some (File Sample.readme))
      by (rewrite disk_fs_lookup; [exact Hr | apply below_base_not_root]).
    by rewrite Hf.
Qed.

(** Writing a file that is already there with the same content. *)
Lemma setup_one_again (disk : Disk) (name data : jsstring) :
  path_resolve cwd [base; name] ≠ [slash] →
  disk !! path_resolve cwd [base; name] = Some (File data) →
  disk_fs disk (path_dirname (path_resolve cwd [base; name])) = Some Dir →
  setup_one cwd dirname disk (name, data) = Ok disk.
Proof.
  intros Hroot Hp Hd. unfold setup_one. cbn [fst snd]. rewrite Hd.
  unfold writeFileSync. rewrite disk_fs_lookup, Hp, Hd by done.
  by rewrite insert_id.
Qed.

(** X19. [/setup-sample] can be repeated: once it has answered, a
    second call answers as well and leaves the disk as it is. *)
Theorem setup_sample_idempotent (disk disk' : Disk) :
  setup_sample cwd dirname disk = Ok disk' →
  setup_sample cwd dirname disk' = Ok disk'.
Proof.
  intros Hsetup.
  destruct (setup_sample_disk disk disk' Hsetup) as (Hh & Hr & Hb & Hn & _).
  unfold setup_sample, samples. cbn [fold_left].
  rewrite setup_one_again.
  - apply setup_one_again.
    + rewrite resolve_readme. apply below_base_not_root.
    + by rewrite resolve_readme.
    + rewrite resolve_readme, dirname_readme.
      by rewrite disk_fs_lookup by apply below_base_not_root.
  - rewrite resolve_hello. apply below_base_not_root.
  - by rewrite resolve_hello.
  - rewrite resolve_hello, dirname_hello.
    by rewrite disk_fs_lookup by apply base_not_root.
Qed.

Lemma mkdirp_child (disk : Disk) (d parent : jsstring) above :
  disk !! d = None → disk !! parent = Some Dir →
  mkdirp (d :: parent :: above) disk = Ok (<[d := Dir]> disk).
Proof. intros H1 H2. cbn [mkdirp]. by rewrite H1, H2. Qed.

Lemma writeFileSync_ok (d2 : Disk) (p parent data : jsstring) :
  path_dirname p = parent → p ≠ [slash] → parent ≠ [slash] →
  d2 !! parent = Some Dir → d2 !! p ≠ Some Dir →
  writeFileSync p data d2 = Ok (<[p := File data]> d2).
Proof.
  intros <- Hp Hparent Hd Hfile. unfold writeFileSync, disk_fs.
  apply str_eqb_neq in Hp, Hparent. rewrite Hp, Hparent, Hd.
  destruct (d2 !! p) as [[c|]|]; done.
Qed.

(** X20. [/setup-sample] answers whenever [BASE_DIR] is a directory
    (the server creates it when it starts), neither sample path is a
    directory and [BASE_DIR/notes] is a directory or does not exist,
    in which case it is created. *)
Theorem setup_sample_succeeds (disk : Disk) :
  disk !! base = Some Dir →
  disk !! hello_path ≠ Some Dir →
  disk !! readme_path ≠ Some Dir →
  disk !! notes_path = None ∨ disk !! notes_path = Some Dir →
  ∃ disk', setup_sample cwd dirname disk = Ok disk'
           ∧ disk' !! notes_path = Some Dir.
Proof.
  intros Hb Hh Hr Hn.
  assert (Hfs_base : ∀ d : Disk, d !! base = Some Dir →
                                 disk_fs d base = Some Dir).
  { intros d Hd. rewrite disk_fs_lookup; [exact Hd | apply base_not_root]. }
  assert (Hstep1 : setup_one cwd dirname disk (js "hello.txt", Sample.hello)
                   = Ok (<[hello_path := File Sample.hello]> disk)).
  { unfold setup_one. cbn [fst snd]. rewrite resolve_hello, dirname_hello.
    rewrite (Hfs_base disk Hb).
    apply (writeFileSync_ok disk hello_path base);
      [apply dirname_hello | apply below_base_not_root | apply base_not_root
      | exact Hb | exact Hh]. }
  set (mid := <[hello_path := File Sample.hello]> disk) in *.
  assert (Hmb : mid !! base = Some Dir).
  { unfold mid. rewrite lookup_insert_ne; [exact Hb|].
    intros H. by apply base_not_hello. }
  assert (Hmn : mid !! notes_path = disk !! notes_path).
  { unfold mid. rewrite lookup_insert_ne; [done|].
    intros H. by apply notes_not_hello. }
  assert (Hmr : mid !! readme_path ≠ Some Dir).
  { unfold mid. rewrite lookup_insert_ne; [exact Hr|]. apply hello_not_readme. }
  assert (Hwrite : ∀ d2 : Disk,
            d2 !! notes_path = Some Dir → d2 !! readme_path ≠ Some Dir →
            writeFileSync readme_path Sample.readme d2
            = Ok (<[readme_path := File Sample.readme]> d2)).
  { intros d2 Hd Hp.
    apply (writeFileSync_ok d2 readme_path notes_path);
      [apply dirname_readme | apply below_base_not_root
      | apply below_base_not_root | exact Hd | exact Hp]. }
  assert (Hfs_notes : disk_fs mid notes_path = disk !! notes_path).
  { rewrite disk_fs_lookup; [exact Hmn | apply below_base_not_root]. }
  unfold setup_sample, samples. cbn [fold_left]. rewrite Hstep1.
  unfold setup_one. cbn [fst snd]. rewrite resolve_readme, dirname_readme.
  rewrite Hfs_notes.
  destruct Hn as [Hn|Hn]; rewrite Hn.
  - unfold mkdirSync_recursive.
    assert (Hchain : ∃ above,
              ancestry (length notes_path) notes_path
              = notes_path :: base :: above).
    { destruct (length notes_path) as [|[|n]] eqn:Hlen.
      - rewrite length_app in Hlen. cbn in Hlen. lia.
      - destruct base_tail as (b & Hbt & Hbne). rewrite Hbt in Hlen.
        destruct b; [done|]. rewrite length_app in Hlen. cbn in Hlen. lia.
      - cbn [ancestry].
        assert (E1 : str_eqb notes_path [slash] = false)
          by (apply str_eqb_neq, below_base_not_root).
        rewrite E1, dirname_notes.
        assert (E2 : str_eqb base [slash] = false)
          by (apply str_eqb_neq, base_not_root).
        rewrite E2. by eexists. }
    destruct Hchain as [above ->].
    assert (E1 : mid !! notes_path = None) by (rewrite Hmn; exact Hn).
    match goal with
    | |- context [mkdirp ?c mid] =>
        replace (mkdirp c mid) with (Ok (<[notes_path := Dir]> mid))
          by (symmetry; exact (mkdirp_child mid notes_path base above E1 Hmb))
    end.
    rewrite Hwrite.
    + eexists. split; [done|].
      rewrite lookup_insert_ne by apply not_eq_sym, notes_not_readme.
      by rewrite lookup_insert_eq.
    + by rewrite lookup_insert_eq.
    + rewrite lookup_insert_ne; [exact Hmr|]. apply notes_not_readme.
  - rewrite Hwrite; [| rewrite Hmn; exact Hn | exact Hmr].
    eexists. split; [done|].
    rewrite lookup_insert_ne by apply not_eq_sym, notes_not_readme.
    rewrite Hmn. exact Hn.
Qed.

End SetupSample.

Section SetupSamples.

Import PathGuard.

Lemma setup_started :
  setup_sample Sample.cwd Sample.dirname SampleDisk.started
  = Ok SampleDisk.installed.
Proof. vm_compute. reflexivity. Qed.

Lemma setup_then_read_witness :
  setup_sample Sample.cwd Sample.dirname SampleDisk.started
  = Ok SampleDisk.installed
  ∧ read_route Sample.cwd Sample.dirname (disk_fs SampleDisk.installed)
      (Str (js "notes/readme.md"))
    = (FileContent (js "/srv/app/files/notes/readme.md")
         (js "# Readme" ++ [10%N] ++ js "Sample readme file"),
       [ExistsSync (js "/srv/app/files/notes/readme.md");
        ReadFileSync (js "/srv/app/files/notes/readme.md")]).
Proof.
  split; [exact setup_started|].
  destruct (setup_then_read Sample.cwd Sample.dirname eq_refl
              SampleDisk.started SampleDisk.installed setup_started)
    as (_ & H & _).
  exact H.
Defined.

Lemma setup_sample_idempotent_witness :
  setup_sample Sample.cwd Sample.dirname SampleDisk.started
  = Ok SampleDisk.installed
  ∧ setup_sample Sample.cwd Sample.dirname SampleDisk.installed
    = Ok SampleDisk.installed.
Proof.
  split; [exact setup_started|].
  exact (setup_sample_idempotent Sample.cwd Sample.dirname eq_refl
           SampleDisk.started SampleDisk.installed setup_started).
Defined.

Lemma setup_sample_succeeds_witness :
  SampleDisk.started !! js "/srv/app/files" = Some Dir
  ∧ ∃ disk', setup_sample Sample.cwd Sample.dirname SampleDisk.started
             = Ok disk'
             ∧ disk' !! js "/srv/app/files/notes" = Some Dir.
Proof.
  split; [vm_compute; reflexivity|].
  apply (setup_sample_succeeds Sample.cwd Sample.dirname eq_refl
           SampleDisk.started).
  - vm_compute. reflexivity.
  - vm_compute. discriminate.
  - vm_compute. discriminate.
  - left. vm_compute. reflexivity.
Defined.

End SetupSamples.

(** ** Where sessions come from and whom they belong to *)

Section SessionOrigin.

Import Auth.
Local Open Scope Z_scope.

Variable clock : nat → Z.
Variable entropy : nat → nat → N.
Variable bcrypt_hashSync : jsstring → N → jsstring.
Variable bcrypt_compare : jsstring → jsstring → bool.

Local Abbreviation createSession := (createSession clock entropy).
Local Abbreviation rotateSession := (rotateSession clock entropy).
Local Abbreviation requireAuth := (requireAuth clock).
Local Abbreviation login :=
  (login clock entropy bcrypt_hashSync bcrypt_compare).
Local Abbreviation me := (me clock bcrypt_hashSync).
Local Abbreviation serve :=
  (serve clock entropy bcrypt_hashSync bcrypt_compare).
Local Abbreviation serve_all :=
  (serve_all clock entropy bcrypt_hashSync bcrypt_compare).
Local Abbreviation findUser := (findUser bcrypt_hashSync).
Local Abbreviation users := (users bcrypt_hashSync).

Lemma sessions_after_delete (oldToken : option jsstring) (w : World)
    (k : jsstring) (s : Session) :
  sessions (after_delete oldToken w) !! k = Some s → sessions w !! k = Some s.
Proof.
  unfold after_delete. destruct (truthy oldToken) as [old|]; [|done].
  destruct (lookup_slot w old); [|done]. cbn.
  rewrite lookup_delete. by case_decide.
Qed.

(** [requireAuth] adds no session and leaves every session with its
    user. *)
Lemma requireAuth_keeps (req_cookie : option jsstring) (w : World)
    (k : jsstring) (s' : Session) :
  sessions (requireAuth req_cookie w).2 !! k = Some s' →
  ∃ s, sessions w !! k = Some s ∧ userId s = userId s'.
Proof.
  unfold Auth.requireAuth.
  destruct (truthy req_cookie) as [token|]; [|by eauto].
  unfold bind, get. cbn.
  destruct (lookup_slot w token) as [slot|] eqn:Hslot; [|by eauto]. cbn.
  destruct (match slot_expires w slot with
            | Some e => clock (ticks w) >? e
            | None => false
            end); cbn.
  - rewrite lookup_delete. case_decide; [done | by eauto].
  - destruct slot as [s|name|e]; cbn; [|by eauto..].
    apply lookup_slot_Stored in Hslot.
    rewrite lookup_insert. case_decide as Hk; [|by eauto].
    subst k. intros [= <-]. by exists s.
Qed.

Lemma me_keeps (req_cookie : option jsstring) (w : World)
    (k : jsstring) (s' : Session) :
  sessions (me req_cookie w).2 !! k = Some s' →
  ∃ s, sessions w !! k = Some s ∧ userId s = userId s'.
Proof.
  unfold Auth.me, bind. assert (H := requireAuth_keeps req_cookie w k s').
  destruct (requireAuth req_cookie w) as [[r|u] w']; [exact H|].
  unfold ret. by destruct (find _ users).
Qed.

Lemma logout_keeps (req_cookie : option jsstring) (w : World)
    (k : jsstring) (s' : Session) :
  sessions (logout req_cookie w).2 !! k = Some s' →
  sessions w !! k = Some s'.
Proof.
  unfold logout, bind, get. cbn.
  destruct (truthy req_cookie) as [token|]; cbn; [|done].
  destruct (lookup_slot w token); cbn; [|done].
  rewrite lookup_delete. by case_decide.
Qed.

(** The two ways a session can be in the store after a request: it was
    there before, with the same user, or the request was a login with a
    matching password and the session is the one it created. *)
Lemma serve_sessions (r : Request) (w : World) (k : jsstring) (s' : Session) :
  sessions (serve r w).2 !! k = Some s' →
  (∃ s, sessions w !! k = Some s ∧ userId s = userId s')
  ∨ (∃ name password req_cookie user,
       r = PostLogin name password req_cookie
       ∧ findUser name = Some user
       ∧ bcrypt_compare password (passwordHash user) = true
       ∧ k = token_of_draw entropy (draws w)
       ∧ s' = mkSession (id user) (clock (ticks w) + TTL)).
Proof.
  destruct r as [name password c|c|c]; unfold Auth.serve, bind.
  - destruct (findUser name) as [user|] eqn:Hu.
    + destruct (bcrypt_compare password (passwordHash user)) eqn:Hc.
      * rewrite (login_success clock entropy bcrypt_hashSync bcrypt_compare
                   name password c user w Hu Hc).
        rewrite rotateSession_eq, createSession_eq.
        rewrite draws_after_delete. cbn.
        rewrite lookup_insert. case_decide as Hk.
        -- intros [= <-]. right. exists name, password, c, user.
           repeat split; try done. f_equal. f_equal.
           unfold after_delete. destruct (truthy c) as [old|]; [|done].
           by destruct (lookup_slot _ old).
        -- intros H%sessions_after_delete. left. by exists s'.
      * rewrite (login_wrong clock entropy bcrypt_hashSync bcrypt_compare
                   name password c user w Hu Hc).
        cbn. intros H. left. by exists s'.
    + rewrite (login_unknown clock entropy bcrypt_hashSync bcrypt_compare
                 name password c w Hu).
      cbn. intros H. left. by exists s'.
  - assert (H := me_keeps c w k s'). destruct (me c w) as [x w']. cbn in *.
    intros Hk. left. by apply H.
  - assert (H := logout_keeps c w k s').
    destruct (logout c w) as [x w']. cbn in *.
    intros Hk. left. exists s'. split; [by apply H | done].
Qed.

(** X8. A token that is not in the store before a request and is in
    it afterwards was created by that request, which is a login of a
    stored user with a matching password: the token is the one drawn
    for it, and its session carries that user's id and expires [TTL]
    after the time the login read.  Validation, [/api/me], logout and
    failed logins never add a session. *)
Theorem session_only_from_login (r : Request) (w : World)
    (k : jsstring) (s' : Session) :
  sessions w !! k = None →
  sessions (serve r w).2 !! k = Some s' →
  ∃ name password req_cookie user,
    r = PostLogin name password req_cookie
    ∧ findUser name = Some user
    ∧ bcrypt_compare password (passwordHash user) = true
    ∧ k = token_of_draw entropy (draws w)
    ∧ s' = mkSession (id user) (clock (ticks w) + TTL).
Proof.
  intros Hnone Hk. destruct (serve_sessions r w k s' Hk) as [(s & Hs & _)|H].
  - congruence.
  - exact H.
Qed.

(** Sessions keep belonging to users of the table. *)
Lemma owned_serve_all (rs : list Request) (w : World) :
  (∀ k s, sessions w !! k = Some s →
          ∃ user, In user users ∧ id user = userId s) →
  ∀ k s, sessions (serve_all rs w).2 !! k = Some s →
         ∃ user, In user users ∧ id user = userId s.
Proof.
  revert w. induction rs as [|r rs IH]; intros w Hw k s; [by apply Hw|].
  cbn [Auth.serve_all]. unfold bind.
  assert (Hstep := serve_sessions r w).
  destruct (serve r w) as [[] w']. cbn [snd] in Hstep.
  apply IH. intros k' s' Hk'.
  destruct (Hstep k' s' Hk')
    as [(s0 & Hs0 & Heq)|(name & pw & c & user & _ & Hu & _ & _ & ->)].
  - rewrite <- Heq. by apply (Hw k' s0).
  - exists user. split; [|done]. by apply find_some in Hu as [? _].
Qed.

(** X9. Whatever requests a fresh server has handled, every token in
    its store has the issued shape (64 lower-case hexadecimal digits)
    and every session belongs to a user of the user table. *)
Theorem reachable_store_invariant (rs : list Request)
    (k : jsstring) (s : Session) :
  sessions (serve_all rs initial).2 !! k = Some s →
  is_token k = true ∧ ∃ user, In user users ∧ id user = userId s.
Proof.
  intros Hk. split.
  - by apply (store_ok_serve_all clock entropy bcrypt_hashSync bcrypt_compare
                rs k s).
  - apply (owned_serve_all rs initial) with (k := k); [|exact Hk].
    intros k' s'. cbn. by rewrite lookup_empty.
Qed.

End SessionOrigin.

(** ** The life of a session: login, use, logout *)

Section SessionLife.

Import Auth.
Local Open Scope Z_scope.

Variable clock : nat → Z.
Variable entropy : nat → nat → N.
Variable bcrypt_hashSync : jsstring → N → jsstring.
Variable bcrypt_compare : jsstring → jsstring → bool.

Local Abbreviation createSession := (createSession clock entropy).
Local Abbreviation rotateSession := (rotateSession clock entropy).
Local Abbreviation requireAuth := (requireAuth clock).
Local Abbreviation login :=
  (login clock entropy bcrypt_hashSync bcrypt_compare).
Local Abbreviation me := (me clock bcrypt_hashSync).
Local Abbreviation serve_all :=
  (serve_all clock entropy bcrypt_hashSync bcrypt_compare).
Local Abbreviation findUser := (findUser bcrypt_hashSync).
Local Abbreviation users := (users bcrypt_hashSync).
Local Abbreviation student :=
  (mkUser 1 (js "student") (bcrypt_hashSync (js "password123") 12)).

Lemma findUser_Some (name : jsstring) (user : User) :
  findUser name = Some user ↔ name = js "student" ∧ user = student.
Proof.
  unfold Auth.findUser, Auth.users. cbn [find username].
  destruct (str_eqb (js "student") name) eqn:E.
  - apply str_eqb_eq in E as <-. split; [by intros [= <-] | by intros [_ ->]].
  - apply str_eqb_neq in E. split; [done | by intros [-> _]].
Qed.

(** What [/api/me] answers once [requireAuth] has let a stored session
    of the student through. *)
Lemma me_live (w : World) (token : jsstring) (s : Session) :
  token ≠ [] → sessions w !! token = Some s → clock (ticks w) ≤ expires s →
  userId s = 1 →
  me (Some token) w
  = (Ok (mkResponse 200 (Authenticated true (Some (js "student"))) NoCookie),
     mkWorld (<[token := mkSession 1 (clock (S (ticks w)) + TTL)]> (sessions w))
       (builtin_expires w) (S (S (ticks w))) (draws w) (compare_log w)).
Proof.
  intros Hne Hs Hlive Hid. unfold Auth.me, bind.
  rewrite (requireAuth_live clock w token s Hne Hs Hlive), Hid. done.
Qed.

(** X10. A login succeeds exactly for the username [student] with a
    password that [bcrypt.compare] matches against the stored hash;
    the names are compared exactly, so no other spelling logs in. *)
Theorem login_succeeds_iff
    (name password : jsstring) (req_cookie : option jsstring) (w : World) :
  status (login name password req_cookie w).1 = 200%N
  ↔ name = js "student"
    ∧ bcrypt_compare password (bcrypt_hashSync (js "password123") 12) = true.
Proof.
  destruct (findUser name) as [user|] eqn:Hu.
  - apply findUser_Some in Hu as Hu'. destruct Hu' as [-> ->].
    destruct (bcrypt_compare password (passwordHash student)) eqn:Hc.
    + rewrite (login_success clock entropy bcrypt_hashSync bcrypt_compare
                 _ _ _ student w Hu Hc).
      destruct (Auth.rotateSession _ _ _ _ _). by split.
    + rewrite (login_wrong clock entropy bcrypt_hashSync bcrypt_compare
                 _ _ _ student w Hu Hc).
      cbn [passwordHash] in Hc. split; [done|]. intros [_ H]. congruence.
  - rewrite (login_unknown clock entropy bcrypt_hashSync bcrypt_compare
               _ _ _ w Hu).
    split; [done|]. intros [-> _].
    assert (H : findUser (js "student") = Some student) by by apply findUser_Some.
    congruence.
Qed.

(** X11. After a successful login the response sets the cookie
    [session] to the token just drawn, [httpOnly], [secure],
    [sameSite: strict] and with [maxAge] equal to [TTL]; presenting
    that token to [/api/me] while the clock has not passed its expiry
    answers 200 with the username of the user who logged in. *)
Theorem login_then_me
    (name password : jsstring) (req_cookie : option jsstring)
    (user : User) (w : World) :
  findUser name = Some user →
  bcrypt_compare password (passwordHash user) = true →
  clock (S (ticks w)) ≤ clock (ticks w) + TTL →
  (login name password req_cookie w).1
  = mkResponse 200 (Success true None)
      (SetCookie (js "session") (token_of_draw entropy (draws w))
         (mkOptions true true (js "strict") TTL))
  ∧ (me (Some (token_of_draw entropy (draws w)))
       (login name password req_cookie w).2).1
    = Ok (mkResponse 200 (Authenticated true (Some (username user))) NoCookie).
Proof.
  intros Hu Hc Hclock.
  rewrite (login_success clock entropy bcrypt_hashSync bcrypt_compare
             _ _ _ user w Hu Hc).
  rewrite rotateSession_eq, createSession_eq, draws_after_delete.
  cbn [fst snd after_compare draws]. split; [done|].
  apply findUser_Some in Hu as [_ ->].
  rewrite (me_live _ (token_of_draw entropy (draws w))
             (mkSession 1 (clock (ticks
                (after_delete req_cookie
                   (after_compare password (passwordHash student) w))) + TTL)));
    [done| | | |done].
  - intros H. assert (Ht := token_of_draw_is_token entropy (draws w)).
    by rewrite H in Ht.
  - cbn [sessions]. by rewrite lookup_insert_eq.
  - cbn [ticks expires].
    assert (Ht : ticks (after_delete req_cookie
                          (after_compare password (passwordHash student) w))
                 = ticks w).
    { unfold after_delete. destruct (truthy req_cookie) as [old|]; [|done].
      by destruct (lookup_slot _ old). }
    by rewrite Ht.
Qed.

(** An issued-shape token that is absent stays refused while no draw
    produces it. *)
Lemma absent_token_refused (w : World) (token : jsstring) (rs : list Request) :
  is_token token = true → sessions w !! token = None →
  (∀ n, (draws w ≤ n)%nat → token_of_draw entropy n ≠ token) →
  requireAuth (Some token) (serve_all rs w).2
  = (Responded (unauthenticated NoCookie), (serve_all rs w).2).
Proof.
  intros Htok Hnone Hfresh. apply requireAuth_absent. intros t Ht.
  rewrite is_token_truthy in Ht by done. injection Ht as <-.
  apply lookup_slot_None; [done|].
  eapply absent_evolves; [exact Hnone | exact Hfresh | apply evolves_serve_all].
Qed.

(** X12. Logout always answers 200 with [success: true] and clears
    the cookie; a token of the issued shape that was presented to it is
    refused by [requireAuth] from then on, whatever requests follow, as
    long as no later draw produces the same token again. *)
Theorem logout_invalidates (w : World) (token : jsstring) (rs : list Request) :
  is_token token = true →
  (∀ n, (draws w ≤ n)%nat → token_of_draw entropy n ≠ token) →
  (∀ req_cookie w0,
     (logout req_cookie w0).1
     = mkResponse 200 (Success true None) (ClearCookie (js "session")))
  ∧ (requireAuth (Some token)
       (serve_all rs (logout (Some token) w).2).2).1
    = Responded (unauthenticated NoCookie).
Proof.
  intros Htok Hfresh. split.
  { intros c w0. unfold logout, bind, get. cbn.
    destruct (truthy c) as [t|]; [|done]. by destruct (lookup_slot w0 t). }
  assert (Hw : sessions (logout (Some token) w).2 !! token = None
               ∧ draws (logout (Some token) w).2 = draws w).
  { unfold logout, bind, get. cbn [fst snd].
    rewrite is_token_truthy, lookup_slot_token by done.
    destruct (sessions w !! token) eqn:E; cbn; [|done].
    by rewrite lookup_delete_eq. }
  destruct Hw as [Hnone Hdraws].
  rewrite absent_token_refused; [done..|].
  intros n Hn. apply Hfresh. by rewrite <- Hdraws.
Qed.

(** X13. An expired token is refused for good: the first presentation
    deletes it (and clears the cookie), every later one is answered
    like an unknown token, whatever requests come in between, as long
    as no later draw produces the same token again. *)
Theorem expired_token_stays_out (w : World) (token : jsstring) (s : Session)
    (rs : list Request) :
  store_ok w → sessions w !! token = Some s → clock (ticks w) > expires s →
  (∀ n, (draws w ≤ n)%nat → token_of_draw entropy n ≠ token) →
  (requireAuth (Some token)
     (serve_all rs (requireAuth (Some token) w).2).2).1
  = Responded (unauthenticated NoCookie).
Proof.
  intros Hok Hs Hexp Hfresh.
  assert (Htok : is_token token = true) by by apply (Hok token s).
  rewrite (requireAuth_expired clock w token s); [|by destruct token|done..].
  cbn [snd]. rewrite absent_token_refused; [done|done| |done].
  cbn. by rewrite lookup_delete_eq.
Qed.

(** X14. A successful login rotates the cookie it was sent out of the
    store: an old token of the issued shape is refused from then on,
    whatever requests follow, as long as no later draw produces it
    again. *)
Theorem login_invalidates_old_token
    (name password old : jsstring) (user : User) (w : World)
    (rs : list Request) :
  findUser name = Some user →
  bcrypt_compare password (passwordHash user) = true →
  is_token old = true →
  (∀ n, (draws w ≤ n)%nat → token_of_draw entropy n ≠ old) →
  (requireAuth (Some old)
     (serve_all rs (login name password (Some old) w).2).2).1
  = Responded (unauthenticated NoCookie).
Proof.
  intros Hu Hc Htok Hfresh.
  rewrite (login_rotates clock entropy bcrypt_hashSync bcrypt_compare
             name password (Some old) user w Hu Hc).
  by apply (rotated_token_is_refused clock entropy bcrypt_hashSync
              bcrypt_compare).
Qed.



(** X16. On a store that a fresh server can have, [/api/me] never
    throws for a token of the issued shape: the answer is 401 with
    [authenticated: false], or 200 with the username [student]. *)
Theorem me_answers_tokens (rs : list Request) (token : jsstring) :
  is_token token = true →
  ∃ r, (me (Some token) (serve_all rs initial).2).1 = Ok r
       ∧ (body r = Authenticated false None ∧ status r = 401%N
          ∨ r = mkResponse 200 (Authenticated true (Some (js "student")))
                  NoCookie).
Proof.
  intros Htok. set (w := (serve_all rs initial).2).
  assert (Hne : token ≠ []) by by destruct token.
  destruct (sessions w !! token) as [s|] eqn:Hs.
  - destruct (Z_le_gt_dec (clock (ticks w)) (expires s)) as [Hlive|Hexp].
    + assert (Hid : userId s = 1).
      { destruct (owned_serve_all clock entropy bcrypt_hashSync bcrypt_compare
                    rs initial) with (k := token) (s := s)
          as (user & Hin & <-); [|done|].
        - intros k' s'. cbn. by rewrite lookup_empty.
        - by destruct Hin as [<-|[]]. }
      rewrite (me_live w token s Hne Hs Hlive Hid). eexists. split; [done|].
      by right.
    + unfold Auth.me, bind.
      rewrite (requireAuth_expired clock w token s Hne Hs Hexp).
      eexists. split; [done|]. by left.
  - unfold Auth.me, bind. rewrite requireAuth_absent.
    + eexists. split; [done|]. by left.
    + intros t Ht. rewrite is_token_truthy in Ht by done. injection Ht as <-.
      by apply lookup_slot_None.
Qed.

End SessionLife.

Section TokenEncoding.

Import Auth.

Lemma hexdigit_injective (n m : N) :
  (n < 16)%N → (m < 16)%N → hexdigit n = hexdigit m → n = m.
Proof.
  unfold hexdigit. intros Hn Hm.
  destruct (N.ltb_spec n 10), (N.ltb_spec m 10); lia.
Qed.

(** X17. Writing bytes in hexadecimal loses nothing: two buffers of
    bytes that give the same token are the same buffer, so two issued
    tokens coincide only when [crypto.randomBytes] returned the same
    32 bytes twice. *)
Theorem toString_hex_injective (a b : list N) :
  Forall (λ x, (x < 256)%N) a → Forall (λ x, (x < 256)%N) b →
  toString_hex a = toString_hex b → a = b.
Proof.
  intros Ha. revert b. induction Ha as [|x a Hx _ IH]; intros b Hb.
  - destruct b; [done | discriminate].
  - destruct Hb as [|y b Hy Hb]; [discriminate|].
    cbn [toString_hex flat_map app]. fold (toString_hex a) (toString_hex b).
    intros [= Hhi Hlo Hrest].
    apply hexdigit_injective in Hhi;
      [|apply N.Div0.div_lt_upper_bound; lia..].
    apply hexdigit_injective in Hlo; [|by apply N.mod_lt..].
    f_equal; [|by apply IH].
    rewrite (N.div_mod x 16), (N.div_mod y 16) by done. congruence.
Qed.

End TokenEncoding.

(** ** The session properties on the sample server *)

Section SessionSamples.

Import Auth.
Local Open Scope Z_scope.

Lemma first_token_fresh (clock : nat → Z) (n : nat) :
  (draws (Sample.after_first_login clock) ≤ n)%nat →
  token_of_draw Sample.once n ≠ Sample.first_token.
Proof.
  intros Hn. destruct n as [|n]; [vm_compute in Hn; lia|].
  vm_compute. discriminate.
Qed.

Lemma after_first_login_store_ok (clock : nat → Z) :
  store_ok (Sample.after_first_login clock).
Proof.
  unfold Sample.after_first_login.
  exact (store_ok_evolves _ _ _ store_ok_initial
           (evolves_login clock Sample.once Sample.bcrypt_hashSync
              Sample.bcrypt_compare (js "student") (js "password123")
              None initial)).
Qed.

Lemma session_only_from_login_witness :
  sessions initial !! Sample.issued = None
  ∧ ∃ name password req_cookie user,
      PostLogin (js "student") (js "password123") None
      = PostLogin name password req_cookie
      ∧ findUser Sample.bcrypt_hashSync name = Some user
      ∧ Sample.bcrypt_compare password (passwordHash user) = true
      ∧ Sample.issued = token_of_draw Sample.entropy (draws initial)
      ∧ mkSession 1 (Sample.steady 0 + TTL)
        = mkSession (id user) (Sample.steady (ticks initial) + TTL).
Proof.
  split; [reflexivity|].
  apply (session_only_from_login Sample.steady Sample.entropy
           Sample.bcrypt_hashSync Sample.bcrypt_compare
           (PostLogin (js "student") (js "password123") None) initial
           Sample.issued (mkSession 1 (Sample.steady 0 + TTL)));
    vm_compute; reflexivity.
Defined.

Lemma reachable_store_invariant_witness :
  is_token Sample.issued = true
  ∧ ∃ user, In user (users Sample.bcrypt_hashSync) ∧ id user = 1.
Proof.
  apply (reachable_store_invariant Sample.steady Sample.entropy
           Sample.bcrypt_hashSync Sample.bcrypt_compare
           [PostLogin (js "student") (js "password123") None]
           Sample.issued (mkSession 1 (Sample.steady 0 + TTL))).
  vm_compute. reflexivity.
Defined.

Lemma login_then_me_witness :
  (me Sample.steady Sample.bcrypt_hashSync (Some Sample.issued)
     (Sample.logged_in Sample.steady).2).1
  = Ok (mkResponse 200 (Authenticated true (Some (js "student"))) NoCookie).
Proof.
  destruct (login_then_me Sample.steady Sample.entropy Sample.bcrypt_hashSync
              Sample.bcrypt_compare (js "student") (js "password123") None
              (mkUser 1 (js "student")
                 (Sample.bcrypt_hashSync (js "password123") 12)) initial)
    as [_ H].
  - reflexivity.
  - reflexivity.
  - vm_compute. discriminate.
  - exact H.
Defined.

Lemma logout_invalidates_witness :
  is_token Sample.first_token = true
  ∧ (requireAuth Sample.steady (Some Sample.first_token)
       (serve_all Sample.steady Sample.once Sample.bcrypt_hashSync
          Sample.bcrypt_compare
          [PostLogin (js "student") (js "wrong") (Some Sample.first_token)]
          (logout (Some Sample.first_token)
             (Sample.after_first_login Sample.steady)).2).2).1
    = Responded (unauthenticated NoCookie).
Proof.
  split; [reflexivity|].
  apply (logout_invalidates Sample.steady Sample.once Sample.bcrypt_hashSync
           Sample.bcrypt_compare (Sample.after_first_login Sample.steady)
           Sample.first_token _ eq_refl (first_token_fresh Sample.steady)).
Defined.

Lemma expired_token_stays_out_witness :
  sessions (Sample.after_first_login Sample.hourly) !! Sample.first_token
  = Some (mkSession 1 (Sample.hourly 0 + TTL))
  ∧ (requireAuth Sample.hourly (Some Sample.first_token)
       (serve_all Sample.hourly Sample.once Sample.bcrypt_hashSync
          Sample.bcrypt_compare [GetMe None]
          (requireAuth Sample.hourly (Some Sample.first_token)
             (Sample.after_first_login Sample.hourly)).2).2).1
    = Responded (unauthenticated NoCookie).
Proof.
  assert (Hs : sessions (Sample.after_first_login Sample.hourly)
               !! Sample.first_token
               = Some (mkSession 1 (Sample.hourly 0 + TTL)))
    by (vm_compute; reflexivity).
  split; [exact Hs|].
  apply (expired_token_stays_out Sample.hourly Sample.once
           Sample.bcrypt_hashSync Sample.bcrypt_compare
           (Sample.after_first_login Sample.hourly) Sample.first_token _ _
           (after_first_login_store_ok Sample.hourly) Hs).
  - vm_compute. reflexivity.
  - apply first_token_fresh.
Defined.

Lemma login_invalidates_old_token_witness :
  (requireAuth Sample.steady (Some Sample.first_token)
     (serve_all Sample.steady Sample.once Sample.bcrypt_hashSync
        Sample.bcrypt_compare [GetMe (Some Sample.first_token)]
        (login Sample.steady Sample.once Sample.bcrypt_hashSync
           Sample.bcrypt_compare (js "student") (js "password123")
           (Some Sample.first_token)
           (Sample.after_first_login Sample.steady)).2).2).1
  = Responded (unauthenticated NoCookie).
Proof.
  apply (login_invalidates_old_token Sample.steady Sample.once
           Sample.bcrypt_hashSync Sample.bcrypt_compare
           (js "student") (js "password123") Sample.first_token
           (mkUser 1 (js "student")
              (Sample.bcrypt_hashSync (js "password123") 12))
           (Sample.after_first_login Sample.steady)).
  - reflexivity.
  - reflexivity.
  - reflexivity.
  - apply first_token_fresh.
Defined.


Lemma me_answers_tokens_witness :
  ∃ r, (me Sample.steady Sample.bcrypt_hashSync (Some Sample.never_issued)
          (serve_all Sample.steady Sample.entropy Sample.bcrypt_hashSync
             Sample.bcrypt_compare
             [PostLogin (js "student") (js "password123") None] initial).2).1
       = Ok r
       ∧ (body r = Authenticated false None ∧ status r = 401%N
          ∨ r = mkResponse 200 (Authenticated true (Some (js "student")))
                  NoCookie).
Proof.
  apply (me_answers_tokens Sample.steady Sample.entropy Sample.bcrypt_hashSync
           Sample.bcrypt_compare).
  reflexivity.
Defined.

Lemma toString_hex_injective_witness :
  Forall (λ x, (x < 256)%N) [222; 173; 190; 239]%N
  ∧ toString_hex [222; 173; 190; 239]%N = toString_hex [222; 173; 190; 239]%N
  ∧ [222; 173; 190; 239]%N = [222; 173; 190; 239]%N.
Proof.
  assert (H : Forall (λ x, (x < 256)%N) [222; 173; 190; 239]%N)
    by (repeat constructor).
  split; [exact H|]. split; [reflexivity|].
  exact (toString_hex_injective [222; 173; 190; 239]%N [222; 173; 190; 239]%N
           H H eq_refl).
Defined.

End SessionSamples.
